(** * ShapeTracker: view stacks, index expressions, merging

    A shallow embedding of [tinygrad/shape/shapetracker.py].  The symbolic
    expression algebra ([tinygrad.shape.symbolic]) and the [View] helpers
    ([tinygrad.shape.view]) are collaborators of the module: the first is an
    interface ([NodeOps]), the second a pair of section variables. *)

From Stdlib Require Import String ZArith Bool Lia Arith List.
From Stdlib Require Import DecimalString DecimalNat Finite Sorted.
Import ListNotations.
Open Scope Z_scope.

Set Implicit Arguments.

(** ** Python exceptions and fallible results *)

Inductive exn : Type := AssertionError | IndexError.

Inductive result (A : Type) : Type :=
| Ok (a : A)
| Raise (e : exn).
Arguments Ok {A} a.
Arguments Raise {A} e.

Definition bind {A B : Type} (r : result A) (k : A -> result B) : result B :=
  match r with
  | Ok a => k a
  | Raise e => Raise e
  end.

Notation "x <- r ;; k" := (bind r (fun x => k))
  (at level 61, r at next level, right associativity).
Notation "' p <- r ;; k" := (bind r (fun p => k))
  (at level 61, p pattern, r at next level, right associativity).

(** ** [sint = Union[int, Node]] *)

Inductive sint (Node : Type) : Type :=
| SInt (z : Z)
| SNode (n : Node).
Arguments SInt {Node} z.
Arguments SNode {Node} n.

(** ** The symbolic algebra as an interface

    Every operator the module applies to a [Node] is a field.  [as_SumNode]
    and [as_MulNode] stand for the [isinstance] tests together with the
    attribute reads [.nodes] and [(.a, .b)]; [node_eq_dec] is [Node.__eq__]
    (equality of keys); [node_bool] is [Node.__bool__]. *)

Class NodeOps (Node : Type) : Type := {
  node_eq_dec : forall a b : Node, {a = b} + {a <> b};
  NumNode : Z -> Node;
  Variable_ : string -> Z -> sint Node -> Node;
  node_mul : Node -> sint Node -> Node;
  node_sub : Node -> sint Node -> Node;
  node_floordiv : Node -> sint Node -> Node;
  node_mod : Node -> sint Node -> Node;
  node_ge : Node -> sint Node -> Node;
  node_lt : Node -> sint Node -> Node;
  node_sum : list Node -> Node;
  node_ands : list Node -> Node;
  node_max : Node -> sint Node;
  node_vars : Node -> list Node;
  node_bool : Node -> bool;
  as_SumNode : Node -> option (list Node);
  as_MulNode : Node -> option (Node * sint Node)
}.

Section Tracker.

Context {Node : Type} `{NodeOps Node}.

#[local] Abbreviation sint := (sint Node).

(** *** Arithmetic and comparisons on [sint] *)

(** [a == b]: two ints compare as ints, two nodes by key, an int and a node
    are never equal. *)
Definition sint_eqb (a b : sint) : bool :=
  match a, b with
  | SInt x, SInt y => Z.eqb x y
  | SNode n, SNode m => if node_eq_dec n m then true else false
  | _, _ => false
  end.

(** [a * b], through [Node.__mul__] / [Node.__rmul__] when a node is involved. *)
Definition sint_mul (a b : sint) : sint :=
  match a, b with
  | SInt x, SInt y => SInt (x * y)
  | SInt x, SNode n => SNode (node_mul n (SInt x))
  | SNode n, _ => SNode (node_mul n b)
  end.

(** [s - 1]. *)
Definition sint_pred (s : sint) : sint :=
  match s with
  | SInt z => SInt (z - 1)
  | SNode n => SNode (node_sub n (SInt 1))
  end.

(** [helpers.prod]: [functools.reduce(operator.mul, x, 1)]. *)
Definition prod (l : list sint) : sint := fold_left sint_mul l (SInt 1).

(** Truth value of an offset in [if view.offset]. *)
Definition sint_bool (s : sint) : bool :=
  match s with
  | SInt z => negb (Z.eqb z 0)
  | SNode n => node_bool n
  end.

(** [NumNode(x) if isinstance(x, int) else x]. *)
Definition to_node (s : sint) : Node :=
  match s with
  | SInt z => NumNode z
  | SNode n => n
  end.

Fixpoint list_eqb {A : Type} (eqb : A -> A -> bool) (l1 l2 : list A) : bool :=
  match l1, l2 with
  | [], [] => true
  | x :: l1', y :: l2' => eqb x y && list_eqb eqb l1' l2'
  | _, _ => false
  end.

(** ** Views *)

Record View : Type := mkView {
  shape : list sint;
  strides : list sint;
  offset : sint;
  mask : option (list (sint * sint));
  contiguous : bool
}.

(** [View.create] and [_merge_dims] live in [tinygrad/shape/view.py]. *)
Variable View_create :
  list sint -> option (list sint) -> sint -> option (list (sint * sint)) -> View.
Variable _merge_dims : list sint -> list sint -> list (sint * sint * sint).

(** [View.permute], of the same file; a failed assertion is a [Raise]. *)
Variable View_permute : View -> list nat -> result View.

(** Truth value of [view.mask]: [None] and the empty tuple are false. *)
Definition mask_bool (m : option (list (sint * sint))) : bool :=
  match m with
  | Some (_ :: _) => true
  | _ => false
  end.

(** *** [expr_node_mask] *)

(** The loop over [zip(reversed(shape), reversed(mask))]; the state is
    [(acc, expr)]. *)
Fixpoint mask_loop (idx : Node) (dxy : list (sint * (sint * sint)))
    (acc : sint) (expr : list Node) : list Node :=
  match dxy with
  | [] => expr
  | (d, (x, y)) :: rest =>
      let expr' :=
        if sint_eqb x (SInt 0) && sint_eqb y d then expr
        else
          let base := node_mod (node_floordiv idx acc) d in
          expr ++ [node_ge base x; node_lt base y] in
      mask_loop idx rest (sint_mul acc d) expr'
  end.

Definition expr_node_mask (view : View) (idx : Node) (valid : option Node) : Node :=
  let expr := match valid with Some v => [v] | None => [] end in
  let expr :=
    match mask view with
    | Some m => mask_loop idx (combine (rev (shape view)) (rev m)) (SInt 1) expr
    | None => expr
    end in
  node_ands expr.

(** The comparisons a view's mask contributes for the index [idx]. *)
Definition mask_terms (view : View) (idx : Node) : list Node :=
  match mask view with
  | Some m => mask_loop idx (combine (rev (shape view)) (rev m)) (SInt 1) []
  | None => []
  end.

(** *** [expr_node] *)

Fixpoint node_loop (idx : Node) (dims : list (sint * sint * sint))
    (acc : sint) (ret : list Node) : list Node :=
  match dims with
  | [] => ret
  | (d, s, _) :: rest =>
      node_loop idx rest (sint_mul acc d)
        (ret ++ [node_mul (node_mod (node_floordiv idx acc) d) s])
  end.

Definition expr_node (view : View) (idx : option Node) : Node :=
  let idx :=
    match idx with
    | Some i => i
    | None => Variable_ "idx" 0 (sint_pred (prod (shape view)))
    end in
  let ret := if sint_bool (offset view) then [to_node (offset view)] else [] in
  node_sum (node_loop idx (rev (_merge_dims (shape view) (strides view))) (SInt 1) ret).

(** *** [expr_idxs] *)

Fixpoint zip3 {A B C : Type} (a : list A) (b : list B) (c : list C) : list (A * B * C) :=
  match a, b, c with
  | x :: a', y :: b', z :: c' => (x, y, z) :: zip3 a' b' c'
  | _, _, _ => []
  end.

Definition idx_terms (view : View) (idxs : list Node) : list Node :=
  map (fun t => match t with (idx, _, st) => node_mul idx st end)
    (filter (fun t => match t with (_, sh, st) =>
               negb (sint_eqb sh (SInt 1)) && negb (sint_eqb st (SInt 0)) end)
       (zip3 idxs (shape view) (strides view))).

Definition expr_idxs (view : View) (idxs : list Node) : result Node :=
  if Nat.eqb (length idxs) (length (shape view))
  then Ok (node_sum (to_node (offset view) :: idx_terms view idxs))
  else Raise AssertionError.

(** *** [idxs_to_idx] *)

(** [itertools.accumulate(l, operator.mul, initial=init)]. *)
Fixpoint accumulate_mul (l : list sint) (init : sint) : list sint :=
  init :: match l with
          | [] => []
          | x :: l' => accumulate_mul l' (sint_mul init x)
          end.

Definition idxs_to_idx (shp : list sint) (idxs : list Node) : result Node :=
  if Nat.eqb (length idxs) (length shp)
  then
    let accs := accumulate_mul (rev (tl shp)) (SInt 1) in
    Ok (node_sum (map (fun p => node_mul (fst p) (snd p)) (combine (rev idxs) accs)))
  else Raise AssertionError.

(** ** The tracker: a stack of views, [views[0]] nearest storage *)

Record ShapeTracker : Type := mkST { views : list View }.

(** [l[-1]]; an empty tuple raises [IndexError]. *)
Definition get_last {A : Type} (l : list A) : result A :=
  match rev l with
  | x :: _ => Ok x
  | [] => Raise IndexError
  end.

Definition ST_shape (st : ShapeTracker) : result (list sint) :=
  v <- get_last (views st) ;; Ok (shape v).

(** [f"idx{i}"]. *)
Definition idx_name (i : nat) : string :=
  ("idx" ++ NilEmpty.string_of_uint (Nat.to_uint i))%string.

(** [[Variable(f"idx{i}", 0, s-1) for i,s in enumerate(shape)]], counting
    from [i]. *)
Fixpoint idx_variables (i : nat) (shp : list sint) : list Node :=
  match shp with
  | [] => []
  | s :: rest => Variable_ (idx_name i) 0 (sint_pred s) :: idx_variables (S i) rest
  end.

(** *** [_expr_idx]: the fold over [reversed(self.views[0:-1])] *)

Fixpoint expr_idx_loop (vs : list View) (idx valid : Node) : Node * Node :=
  match vs with
  | [] => (idx, valid)
  | v :: rest =>
      if sint_eqb (node_max valid) (SInt 0) then (NumNode (-1), valid)
      else expr_idx_loop rest (expr_node v (Some idx)) (expr_node_mask v idx (Some valid))
  end.

Definition ST__expr_idx (st : ShapeTracker) (idx valid : Node) : Node * Node :=
  expr_idx_loop (rev (removelast (views st))) idx valid.

(** *** [ShapeTracker.expr_idxs] *)

Definition ST_expr_idxs (st : ShapeTracker) (idxs : option (list Node))
  : result (Node * Node) :=
  v <- get_last (views st) ;;
  let idxs := match idxs with
              | Some l => l
              | None => idx_variables 0 (shape v)
              end in
  idx <- expr_idxs v idxs ;;
  flat <- idxs_to_idx (shape v) idxs ;;
  Ok (ST__expr_idx st idx (expr_node_mask v flat None)).

(** *** [ShapeTracker.expr_node] *)

Definition ST_expr_node (st : ShapeTracker) (idx : Node + string)
  : result (Node * Node) :=
  v <- get_last (views st) ;;
  let idx := match idx with
             | inl n => n
             | inr name => Variable_ name 0 (sint_pred (prod (shape v)))
             end in
  Ok (ST__expr_idx st (expr_node v (Some idx)) (expr_node_mask v idx None)).

(** *** [real_strides] *)

Definition in_nodes (x : Node) (l : list Node) : bool :=
  if in_dec node_eq_dec x l then true else false.

(** [l.index(x)]: [None] stands for [ValueError]. *)
Fixpoint index_of (x : Node) (l : list Node) : option nat :=
  match l with
  | [] => None
  | y :: l' => if node_eq_dec y x then Some O
               else option_map S (index_of x l')
  end.

(** [l[i] = x] for [i] in range. *)
Fixpoint list_set {A : Type} (l : list A) (i : nat) (x : A) : list A :=
  match l, i with
  | [], _ => []
  | _ :: l', O => x :: l'
  | y :: l', S i' => y :: list_set l' i' x
  end.

(** [(this_dim.a, this_dim.b) if isinstance(this_dim, MulNode) else (this_dim, 1)]. *)
Definition term_split (t : Node) : Node * sint :=
  match as_MulNode t with
  | Some (a, b) => (a, b)
  | None => (t, SInt 1)
  end.

(** The first loop, over the additive terms of the offset expression; the
    state is [(ret, bad_idx_vars)]. *)
Fixpoint strides_loop (idxs : list Node) (terms : list Node)
    (ret : list (option sint)) (bad : list Node) : list (option sint) * list Node :=
  match terms with
  | [] => (ret, bad)
  | this_dim :: rest =>
      let '(idx_maybe, stride_maybe) := term_split this_dim in
      match index_of idx_maybe idxs with
      | Some i => strides_loop idxs rest (list_set ret i (Some stride_maybe)) bad
      | None => strides_loop idxs rest ret (bad ++ node_vars idx_maybe)
      end
  end.





(** The second loop: entry [i] of [ret] depends on [idxs[i]] alone. *)
Definition strides_fix (ignore_valid : bool) (bad idx_vars valid_vars : list Node)
    (tidx : Node) (r : option sint) : option sint :=
  if in_nodes tidx bad || (in_nodes tidx valid_vars && negb ignore_valid) then None
  else if negb (in_nodes tidx idx_vars) then Some (SInt 0)
  else r.

Definition is_single_unmasked (vs : list View) : option View :=
  match vs with
  | [v] => match mask v with None => Some v | Some _ => None end
  | _ => None
  end.

Definition ST_real_strides (st : ShapeTracker) (ignore_valid : bool)
  : result (list (option sint)) :=
  match is_single_unmasked (views st) with
  | Some v => Ok (map Some (strides v))
  | None =>
      shp <- ST_shape st ;;
      let idxs := idx_variables 0 shp in
      '(idx, valid) <- ST_expr_idxs st (Some idxs) ;;
      let ret := repeat None (length shp) in
      let terms := match as_SumNode idx with
                   | Some nodes => nodes
                   | None => [idx]
                   end in
      let '(ret, bad_idx_vars) := strides_loop idxs terms ret [] in
      Ok (map (fun p => strides_fix ignore_valid bad_idx_vars
                          (node_vars idx) (node_vars valid) (fst p) (snd p))
              (combine idxs ret))
  end.

(** *** [merge_views] *)

Definition is_None {A : Type} (o : option A) : bool :=
  match o with None => true | Some _ => false end.

(** The strides once none of them is [None]. *)
Fixpoint somes {A : Type} (l : list (option A)) : list A :=
  match l with
  | [] => []
  | Some x :: l' => x :: somes l'
  | None :: l' => somes l'
  end.

Definition merge_views (vm2 vm1 : View) : result (option View) :=
  if contiguous vm1 && list_eqb sint_eqb (shape vm1) (shape vm2) then Ok (Some vm2)
  else if contiguous vm2 then Ok (Some vm1)
  else if mask_bool (mask vm2) || negb (sint_eqb (offset vm1) (SInt 0)) then Ok None
  else
    strides <- ST_real_strides (mkST [vm2; vm1]) false ;;
    if existsb is_None strides then Ok None
    else Ok (Some (View_create (shape vm1) (Some (somes strides)) (offset vm2) (mask vm1))).

(** *** [simplify]

    The recursion of [simplify] is on the stack with its last two views
    replaced by their merge.  Here the views below the last one are kept in
    reverse ([below] starts with [views[-2]]), which makes the recursion
    structural. *)

Fixpoint simplify_loop (below : list View) (last : View) : result (list View) :=
  match below with
  | [] => Ok [last]
  | vm2 :: rest =>
      new_view <- merge_views vm2 last ;;
      match new_view with
      | Some v => simplify_loop rest v
      | None => Ok (rev (last :: below))
      end
  end.

Definition ST_simplify (st : ShapeTracker) : result ShapeTracker :=
  match rev (views st) with
  | [] => Ok st
  | last :: below => vs <- simplify_loop below last ;; Ok (mkST vs)
  end.

(** *** [__add__] *)

Fixpoint add_loop (ret : ShapeTracker) (vs : list View) : result ShapeTracker :=
  match vs with
  | [] => Ok ret
  | v :: rest =>
      ret' <- ST_simplify (mkST (views ret ++ [v])) ;;
      add_loop ret' rest
  end.

Definition ST_add (self st : ShapeTracker) : result ShapeTracker :=
  add_loop self (views st).

(** *** [real_size]

    [while not isinstance(ret, int): ret = ret.max], run for at most [fuel]
    rounds; [None] when the rounds are used up. *)

Fixpoint resolve_max (fuel : nat) (ret : sint) : option Z :=
  match ret with
  | SInt z => Some z
  | SNode n =>
      match fuel with
      | O => None
      | S fuel' => resolve_max fuel' (node_max n)
      end
  end.

Definition ST_real_size (fuel : nat) (st : ShapeTracker) : result (option Z) :=
  shp <- ST_shape st ;;
  if existsb (sint_eqb (SInt 0)) shp then Ok (Some 0)
  else
    '(idx, _) <- ST_expr_idxs st None ;;
    Ok (option_map (fun z => z + 1) (resolve_max fuel (node_max idx))).

(** *** Movement operations: [permute] *)

Definition ST_permute (st : ShapeTracker) (axis : list nat) : result ShapeTracker :=
  v <- get_last (views st) ;;
  v' <- View_permute v axis ;;
  Ok (mkST (removelast (views st) ++ [v'])).

End Tracker.

Arguments View Node : clear implicits.
Arguments ShapeTracker Node : clear implicits.

(** * The collaborators, modelled from the specification *)

(** Modelled from the spec: the symbolic expression algebra
    ([tinygrad/shape/symbolic.py], not part of this module).  The spec gives
    its interface: integer-valued expressions over bound variables with a
    [min,max] range, integer constants, sums of terms, products, floor
    division, modulo, comparisons yielding boolean expressions, conjunctions
    (the empty one statically true), static [min,max] bounds and free-variable
    enumeration.  The constructors below build the expression as it is
    written, without rewriting it. *)
Inductive CNode : Type :=
| CVar (expr : string) (vmin vmax : Z)
| CNum (b : Z)
| CMul (a b : CNode)
| CDiv (a b : CNode)
| CMod (a b : CNode)
| CLt (a b : CNode)
| CGe (a b : CNode)
| CSum (nodes : list CNode)
| CAnd (nodes : list CNode).

Fixpoint cnode_eq_dec (a b : CNode) {struct a} : {a = b} + {a <> b}.
Proof.
  decide equality; try apply Z.eq_dec; try apply string_dec;
    apply (list_eq_dec cnode_eq_dec).
Defined.

(** The value of an expression under an assignment of the variables. *)
Fixpoint ceval (rho : string -> Z) (n : CNode) : Z :=
  match n with
  | CVar x _ _ => rho x
  | CNum b => b
  | CMul a b => ceval rho a * ceval rho b
  | CDiv a b => ceval rho a / ceval rho b
  | CMod a b => ceval rho a mod ceval rho b
  | CLt a b => if ceval rho a <? ceval rho b then 1 else 0
  | CGe a b => if ceval rho b <=? ceval rho a then 1 else 0
  | CSum nodes => fold_right (fun x s => ceval rho x + s) 0 nodes
  | CAnd nodes => if forallb (fun x => negb (ceval rho x =? 0)) nodes then 1 else 0
  end.

(** Static bounds, by interval arithmetic. *)
Definition min4 (a b c d : Z) : Z := Z.min (Z.min a b) (Z.min c d).
Definition max4 (a b c d : Z) : Z := Z.max (Z.max a b) (Z.max c d).

Fixpoint cbounds (n : CNode) : Z * Z :=
  match n with
  | CVar _ lo hi => (lo, hi)
  | CNum b => (b, b)
  | CMul a b =>
      let '(la, ha) := cbounds a in
      let '(lb, hb) := cbounds b in
      (min4 (la * lb) (la * hb) (ha * lb) (ha * hb),
       max4 (la * lb) (la * hb) (ha * lb) (ha * hb))
  | CDiv a b =>
      let '(la, ha) := cbounds a in
      let '(lb, hb) := cbounds b in
      if (0 <=? la) && (0 <? lb) then (la / hb, ha / lb)
      else let m := Z.max (Z.abs la) (Z.abs ha) in (- m, m)
  | CMod a b =>
      let '(la, ha) := cbounds a in
      let '(lb, hb) := cbounds b in
      if 0 <? lb then
        if (0 <=? la) && (ha <? lb) then (la, ha) else (0, hb - 1)
      else let m := max4 (Z.abs la) (Z.abs ha) (Z.abs lb) (Z.abs hb) in (- m, m)
  | CLt a b =>
      let '(la, ha) := cbounds a in
      let '(lb, hb) := cbounds b in
      (if ha <? lb then 1 else 0, if la <? hb then 1 else 0)
  | CGe a b =>
      let '(la, ha) := cbounds a in
      let '(lb, hb) := cbounds b in
      (if hb <=? la then 1 else 0, if lb <=? ha then 1 else 0)
  | CSum nodes =>
      fold_right (fun x s => let '(l, h) := cbounds x in (l + fst s, h + snd s))
        (0, 0) nodes
  | CAnd nodes =>
      (if forallb (fun x => let '(l, h) := cbounds x in (0 <? l) || (h <? 0)) nodes
       then 1 else 0,
       if existsb (fun x => let '(l, h) := cbounds x in (l =? 0) && (h =? 0)) nodes
       then 0 else 1)
  end.

(** The variables of an expression, in order of occurrence. *)
Fixpoint cvars (n : CNode) : list CNode :=
  match n with
  | CVar _ _ _ => [n]
  | CNum _ => []
  | CMul a b | CDiv a b | CMod a b | CLt a b | CGe a b => cvars a ++ cvars b
  | CSum nodes | CAnd nodes => flat_map cvars nodes
  end.

Definition cnode_of (s : sint CNode) : CNode :=
  match s with
  | SInt z => CNum z
  | SNode n => n
  end.

Definition sint_of (n : CNode) : sint CNode :=
  match n with
  | CNum z => SInt z
  | _ => SNode n
  end.

#[export] Instance CNodeOps : NodeOps CNode := {|
  node_eq_dec := cnode_eq_dec;
  NumNode := CNum;
  Variable_ := fun x lo hi => CVar x lo (snd (cbounds (cnode_of hi)));
  node_mul := fun a b => CMul a (cnode_of b);
  node_sub := fun a b => CSum [a; CMul (cnode_of b) (CNum (-1))];
  node_floordiv := fun a b => CDiv a (cnode_of b);
  node_mod := fun a b => CMod a (cnode_of b);
  node_ge := fun a b => CGe a (cnode_of b);
  node_lt := fun a b => CLt a (cnode_of b);
  node_sum := CSum;
  node_ands := CAnd;
  node_max := fun n => SInt (snd (cbounds n));
  node_vars := cvars;
  node_bool := fun n => negb ((fst (cbounds n) =? 0) && (snd (cbounds n) =? 0));
  as_SumNode := fun n => match n with CSum l => Some l | _ => None end;
  as_MulNode := fun n => match n with CMul a b => Some (a, sint_of b) | _ => None end
|}.

Section ViewModel.

Context {Node : Type} `{NodeOps Node}.

#[local] Abbreviation sint := (sint Node).

(** Modelled from the spec: the canonical row-major strides of a shape
    ([strides_for_shape] of [tinygrad/shape/view.py]): the stride of a
    dimension is the product of the sizes after it, so that shape [(2,3)] has
    strides [(3,1)]. *)
Fixpoint strides_for_shape (shp : list sint) : list sint :=
  match shp with
  | [] => []
  | _ :: rest => prod rest :: strides_for_shape rest
  end.

(** Modelled from the spec: [View.create(shape[, strides, offset, mask])] of
    [tinygrad/shape/view.py].  The strides default to the canonical ones, and
    [contiguous] is derived: true iff the offset is 0, the mask is absent and
    the strides are the canonical row-major strides of the shape. *)
Definition View_create_spec (shp : list sint) (st : option (list sint))
    (off : sint) (m : option (list (sint * sint))) : View Node :=
  let st := match st with
            | Some s => s
            | None => strides_for_shape shp
            end in
  mkView shp st off m
    (sint_eqb off (SInt 0) && is_None m
     && list_eqb sint_eqb st (strides_for_shape shp)).

(** Modelled from the spec: [_merge_dims] of [tinygrad/shape/view.py], which
    lists the (size, stride) pairs that the flattened index is decomposed
    over, by successive division and modulo by the accumulated sizes.  The
    model lists every dimension, merging none. *)
Definition merge_dims_spec (shp st : list sint) : list (sint * sint * sint) :=
  map (fun p => (fst p, snd p, fst p)) (combine shp st).

(** [axis] is a bijection over the dimension indices [0 .. n-1]. *)
Fixpoint nodupb (l : list nat) : bool :=
  match l with
  | [] => true
  | x :: l' => negb (existsb (Nat.eqb x) l') && nodupb l'
  end.

Definition is_axis_order (axis : list nat) (n : nat) : bool :=
  Nat.eqb (length axis) n && forallb (fun a => Nat.ltb a n) axis && nodupb axis.

(** [tuple(l[a] for a in axis)], for [axis] within range. *)
Definition pick {A : Type} (l : list A) (axis : list nat) : list A :=
  flat_map (fun a => match nth_error l a with Some x => [x] | None => [] end) axis.

(** Modelled from the spec: [View.permute(axis_order)] of
    [tinygrad/shape/view.py] reorders the shape, strides and mask entries
    according to [axis_order], and fails when [axis_order] is not a bijection
    over the dimension indices. *)
Definition View_permute_spec
    (create : list sint -> option (list sint) -> sint ->
              option (list (sint * sint)) -> View Node)
    (v : View Node) (axis : list nat) : result (View Node) :=
  if is_axis_order axis (length (shape v))
  then Ok (create (pick (shape v) axis) (Some (pick (strides v) axis)) (offset v)
             (option_map (fun m => pick m axis) (mask v)))
  else Raise AssertionError.

(** [invert(p)]: the position of each dimension index in [p]. *)
Fixpoint position (a : nat) (l : list nat) : nat :=
  match l with
  | [] => O
  | x :: l' => if Nat.eqb x a then O else S (position a l')
  end.

Definition invert_axis (p : list nat) : list nat :=
  map (fun a => position a p) (seq 0 (length p)).

End ViewModel.

(** ** The tracker over the modelled collaborators *)

Definition c_create := View_create_spec (Node:=CNode).
Definition c_permute := View_permute_spec c_create.
Definition c_expr_idxs := ST_expr_idxs (Node:=CNode) merge_dims_spec.
Definition c_real_strides := ST_real_strides (Node:=CNode) merge_dims_spec.
Definition c_merge_views := merge_views (Node:=CNode) c_create merge_dims_spec.
Definition c_simplify := ST_simplify (Node:=CNode) c_create merge_dims_spec.
Definition c_add := ST_add (Node:=CNode) c_create merge_dims_spec.
Definition c_st_permute := ST_permute (Node:=CNode) c_permute.

(** [ShapeTracker.from_shape]. *)
Definition c_from_shape (shp : list Z) : ShapeTracker CNode :=
  mkST [c_create (map SInt shp) None (SInt 0) None].

(** * Properties that hold for every symbolic algebra *)

Section TrackerFacts.

Context {Node : Type} `{NodeOps Node}.

#[local] Abbreviation sint := (sint Node).

Variable View_create :
  list sint -> option (list sint) -> sint -> option (list (sint * sint)) -> View Node.
Variable _merge_dims : list sint -> list sint -> list (sint * sint * sint).

Lemma sint_eqb_eq (a b : sint) : sint_eqb a b = true <-> a = b.
Proof.
  destruct a as [x|n], b as [y|m]; simpl; split; intros E;
    try discriminate; try congruence.
  - apply Z.eqb_eq in E. congruence.
  - inversion E. apply Z.eqb_refl.
  - destruct (node_eq_dec n m); congruence.
  - inversion E. destruct (node_eq_dec m m); congruence.
Qed.

Lemma sint_eqb_neq (a b : sint) : sint_eqb a b = false <-> a <> b.
Proof.
  rewrite <- sint_eqb_eq. destruct (sint_eqb a b); split; congruence.
Qed.

Lemma list_eqb_eq (l1 l2 : list sint) :
  list_eqb sint_eqb l1 l2 = true <-> l1 = l2.
Proof.
  revert l2. induction l1 as [|x l1 IH]; intros [|y l2]; simpl;
    split; intros E; try discriminate; try reflexivity.
  - apply andb_prop in E. destruct E as [E1 E2].
    apply sint_eqb_eq in E1. apply IH in E2. congruence.
  - inversion E; subst. apply andb_true_intro. split.
    + now apply sint_eqb_eq.
    + now apply IH.
Qed.

Lemma mask_bool_true (m : option (list (sint * sint))) :
  mask_bool m = true <-> exists p rest, m = Some (p :: rest).
Proof.
  destruct m as [[|p rest]|]; simpl; split; intros E; try discriminate;
    try (destruct E as (p' & rest' & E); discriminate); eauto.
Qed.

Lemma get_last_app {A : Type} (l : list A) (x : A) : get_last (l ++ [x]) = Ok x.
Proof. unfold get_last. rewrite rev_app_distr. reflexivity. Qed.

Lemma get_last_Ok {A : Type} (l : list A) (x : A) :
  get_last l = Ok x <-> exists l', l = l' ++ [x].
Proof.
  split.
  - unfold get_last. intros E. destruct (rev l) as [|y r] eqn:R; [discriminate|].
    inversion E; subst. exists (rev r).
    rewrite <- (rev_involutive l), R. reflexivity.
  - intros [l' ->]. apply get_last_app.
Qed.

Lemma idx_variables_length (shp : list sint) (i : nat) :
  length (idx_variables i shp) = length shp.
Proof. revert i. induction shp; intros i; simpl; auto. Qed.

#[local] Abbreviation merge := (merge_views View_create _merge_dims).
#[local] Abbreviation simplify := (ST_simplify View_create _merge_dims).
#[local] Abbreviation real_strides := (ST_real_strides _merge_dims).
#[local] Abbreviation st_expr_idxs := (ST_expr_idxs _merge_dims).

(** ** Index expressions never fail on the tracker's own variables *)

Lemma expr_idxs_Ok (v : View Node) (idxs : list Node) :
  length idxs = length (shape v) ->
  expr_idxs v idxs = Ok (node_sum (to_node (offset v) :: idx_terms v idxs)).
Proof. intros E. unfold expr_idxs. rewrite E, Nat.eqb_refl. reflexivity. Qed.

Lemma expr_idxs_Raise (v : View Node) (idxs : list Node) :
  length idxs <> length (shape v) -> expr_idxs v idxs = Raise AssertionError.
Proof.
  intros E. unfold expr_idxs. apply Nat.eqb_neq in E. rewrite E. reflexivity.
Qed.

Lemma idxs_to_idx_Ok (shp : list sint) (idxs : list Node) :
  length idxs = length shp -> exists flat, idxs_to_idx shp idxs = Ok flat.
Proof.
  intros E. unfold idxs_to_idx. rewrite E, Nat.eqb_refl. eauto.
Qed.

Lemma ST_expr_idxs_total (st : ShapeTracker Node) (v : View Node) (idxs : list Node) :
  get_last (views st) = Ok v ->
  length idxs = length (shape v) ->
  exists r, st_expr_idxs st (Some idxs) = Ok r.
Proof.
  intros L E. unfold ST_expr_idxs. rewrite L. simpl.
  rewrite (expr_idxs_Ok v idxs E). simpl.
  destruct (idxs_to_idx_Ok (shape v) idxs E) as [flat ->]. simpl. eauto.
Qed.

Lemma real_strides_total (st : ShapeTracker Node) (v : View Node) (ig : bool) :
  get_last (views st) = Ok v ->
  exists r, real_strides st ig = Ok r.
Proof.
  intros L. unfold ST_real_strides.
  destruct (is_single_unmasked (views st)); [eauto|].
  unfold ST_shape. rewrite L. simpl.
  destruct (ST_expr_idxs_total st (idx_variables 0 (shape v)) L
              (idx_variables_length _ _)) as [[idx valid] ->].
  simpl. destruct (strides_loop _ _ _ _). eauto.
Qed.

Lemma merge_views_total (vm2 vm1 : View Node) : exists r, merge vm2 vm1 = Ok r.
Proof.
  unfold merge_views.
  destruct (contiguous vm1 && _); [eauto|].
  destruct (contiguous vm2); [eauto|].
  destruct (mask_bool _ || _); [eauto|].
  destruct (real_strides_total (mkST [vm2; vm1]) (v:=vm1) false eq_refl) as [r ->].
  simpl. destruct (existsb _ _); eauto.
Qed.

(** ** What a successful merge looks like *)

Lemma merge_views_inv (vm2 vm1 v : View Node) :
  merge vm2 vm1 = Ok (Some v) ->
  (v = vm2 /\ contiguous vm1 = true /\ shape vm1 = shape vm2) \/
  (v = vm1 /\ contiguous vm2 = true) \/
  (exists strides,
      contiguous vm2 = false /\ mask_bool (mask vm2) = false /\
      offset vm1 = SInt 0 /\
      real_strides (mkST [vm2; vm1]) false = Ok strides /\
      existsb is_None strides = false /\
      v = View_create (shape vm1) (Some (somes strides)) (offset vm2) (mask vm1)).
Proof.
  unfold merge_views.
  destruct (contiguous vm1 && _) eqn:C1.
  { intros E. inversion E; subst. left.
    apply andb_prop in C1. destruct C1 as [C S]. apply list_eqb_eq in S. auto. }
  destruct (contiguous vm2) eqn:C2.
  { intros E. inversion E; subst. auto. }
  destruct (mask_bool _ || _) eqn:G; [discriminate|].
  apply orb_false_elim in G. destruct G as [G1 G2].
  apply negb_false_iff, sint_eqb_eq in G2.
  destruct (real_strides (mkST [vm2; vm1]) false) as [strides|e] eqn:R;
    simpl; [|discriminate].
  destruct (existsb is_None strides) eqn:N; [discriminate|].
  intros E. inversion E; subst. right. right. exists strides. auto 10.
Qed.

(** ** [merge_views], case by case *)

(** C2 (as amended).  On an adjacent pair [(vm2, vm1)]: (1) a contiguous
    [vm1] of the shape of [vm2] gives [vm2]; (2) otherwise a contiguous [vm2]
    gives [vm1]; (3) otherwise the merge is rejected when [vm2] carries a
    non-empty mask or the offset of [vm1] is not the integer 0. *)
Theorem merge_views_cases (vm2 vm1 : View Node) :
  (contiguous vm1 = true -> shape vm1 = shape vm2 ->
   merge vm2 vm1 = Ok (Some vm2)) /\
  (~ (contiguous vm1 = true /\ shape vm1 = shape vm2) ->
   contiguous vm2 = true ->
   merge vm2 vm1 = Ok (Some vm1)) /\
  (~ (contiguous vm1 = true /\ shape vm1 = shape vm2) ->
   contiguous vm2 = false ->
   (exists p rest, mask vm2 = Some (p :: rest)) \/ offset vm1 <> SInt 0 ->
   merge vm2 vm1 = Ok None).
Proof.
  assert (G : ~ (contiguous vm1 = true /\ shape vm1 = shape vm2) ->
              contiguous vm1 && list_eqb sint_eqb (shape vm1) (shape vm2) = false).
  { intros N. apply not_true_is_false. intros E. apply N.
    apply andb_prop in E. destruct E as [C S]. apply list_eqb_eq in S. auto. }
  unfold merge_views. repeat split.
  - intros C S. rewrite C. apply list_eqb_eq in S. rewrite S. reflexivity.
  - intros N C2. rewrite (G N), C2. reflexivity.
  - intros N C2 M. rewrite (G N), C2.
    replace (mask_bool (mask vm2) || negb (sint_eqb (offset vm1) (SInt 0)))
      with true; [reflexivity|].
    symmetry. apply orb_true_iff. destruct M as [M|M].
    + left. now apply mask_bool_true.
    + right. apply negb_true_iff. now apply sint_eqb_neq.
Qed.

(** ** [simplify] keeps the logical shape *)

Hypothesis View_create_shape : forall shp st off m,
  shape (View_create shp st off m) = shp.

Lemma merge_views_shape (vm2 vm1 v : View Node) :
  merge vm2 vm1 = Ok (Some v) -> shape v = shape vm1.
Proof.
  intros E. apply merge_views_inv in E.
  destruct E as [(-> & _ & S) | [(-> & _) | (strides & _ & _ & _ & _ & _ & ->)]];
    auto.
Qed.

Lemma simplify_loop_shape (below : list (View Node)) (last : View Node) :
  exists vs v,
    simplify_loop View_create _merge_dims below last = Ok vs /\
    get_last vs = Ok v /\ shape v = shape last.
Proof.
  revert last. induction below as [|vm2 rest IH]; intros last; simpl.
  - exists [last], last. auto.
  - destruct (merge_views_total vm2 last) as [[v|] E]; rewrite E; simpl.
    + destruct (IH v) as (vs & v' & E1 & E2 & E3).
      exists vs, v'. repeat split; auto.
      rewrite E3. now apply merge_views_shape with vm2.
    + exists (rev rest ++ [vm2] ++ [last]), last. repeat split; auto.
      * now rewrite <- app_assoc.
      * rewrite app_assoc. apply get_last_app.
Qed.

(** C10.  [simplify] returns a tracker, and its shape is the shape of the
    tracker it was given (for the empty stack both shape queries raise the
    same [IndexError]). *)
Theorem simplify_shape (st : ShapeTracker Node) :
  exists st', simplify st = Ok st' /\ ST_shape st' = ST_shape st.
Proof.
  unfold ST_simplify. destruct (rev (views st)) as [|last below] eqn:R.
  - eauto.
  - destruct (simplify_loop_shape below last) as (vs & v & E1 & E2 & E3).
    rewrite E1. simpl. eexists. split; [reflexivity|].
    unfold ST_shape. simpl. rewrite E2. unfold get_last. rewrite R.
    simpl. congruence.
Qed.

(** ** Rank contract of [expr_idxs] *)

(** C9.  With a tuple of index expressions whose length is not the rank of
    the last view, [expr_idxs] fails with an [AssertionError] (and so do the
    two functions it calls); with a tuple of the right length it returns. *)
Theorem expr_idxs_rank_contract (st : ShapeTracker Node) (v : View Node)
    (idxs : list Node) :
  get_last (views st) = Ok v ->
  (length idxs <> length (shape v) ->
   st_expr_idxs st (Some idxs) = Raise AssertionError /\
   expr_idxs v idxs = Raise AssertionError /\
   idxs_to_idx (shape v) idxs = Raise AssertionError) /\
  (length idxs = length (shape v) ->
   exists r, st_expr_idxs st (Some idxs) = Ok r).
Proof.
  intros L. split.
  - intros N. pose proof (expr_idxs_Raise v idxs N) as E.
    repeat split; auto.
    + unfold ST_expr_idxs. rewrite L. simpl. rewrite E. reflexivity.
    + unfold idxs_to_idx. apply Nat.eqb_neq in N. rewrite N. reflexivity.
  - intros E. now apply ST_expr_idxs_total with v.
Qed.

(** ** The fold of [_expr_idx] *)

Lemma mask_loop_app (idx : Node) (dxy : list (sint * (sint * sint)))
    (acc : sint) (e1 e2 : list Node) :
  mask_loop idx dxy acc (e1 ++ e2) = e1 ++ mask_loop idx dxy acc e2.
Proof.
  revert acc e2. induction dxy as [|[d [x y]] rest IH]; intros acc e2; simpl.
  - reflexivity.
  - destruct (sint_eqb x (SInt 0) && sint_eqb y d).
    + apply IH.
    + rewrite <- app_assoc. apply IH.
Qed.

Lemma expr_node_mask_Some (v : View Node) (idx valid : Node) :
  expr_node_mask v idx (Some valid) = node_ands (valid :: mask_terms v idx).
Proof.
  unfold expr_node_mask, mask_terms. destruct (mask v) as [m|]; [|reflexivity].
  now rewrite (mask_loop_app idx _ _ [valid] []).
Qed.

Lemma expr_node_mask_None (v : View Node) (idx : Node) :
  expr_node_mask v idx None = node_ands (mask_terms v idx).
Proof. unfold expr_node_mask, mask_terms. now destruct (mask v). Qed.

(** The fold can be cut anywhere: a short-circuited state stays as it is. *)
Lemma expr_idx_loop_app (pre post : list (View Node)) (idx valid : Node) :
  expr_idx_loop _merge_dims (pre ++ post) idx valid =
  let '(idx', valid') := expr_idx_loop _merge_dims pre idx valid in
  expr_idx_loop _merge_dims post idx' valid'.
Proof.
  revert idx valid. induction pre as [|v pre IH]; intros idx valid; simpl.
  - reflexivity.
  - destruct (sint_eqb (node_max valid) (SInt 0)) eqn:M.
    + destruct post; simpl; [reflexivity|]. now rewrite M.
    + apply IH.
Qed.

(** C8.  Let the views above [v] be folded already, with result
    [(idx', valid')].  If the static maximum of [valid'] is 0, the whole fold
    returns the constant [-1] and [valid'], whatever [v] and the views below
    it are.  Otherwise [idx'] is the index fed into [v], the offset derived
    from [v] is the index of the next view, and the validity passed on is the
    conjunction of [valid'] with the mask comparisons of [v]. *)
Theorem expr_idx_short_circuit (below above : list (View Node))
    (v last : View Node) (idx valid idx' valid' : Node) :
  ST__expr_idx _merge_dims (mkST (above ++ [last])) idx valid = (idx', valid') ->
  (node_max valid' = SInt 0 ->
   ST__expr_idx _merge_dims (mkST (below ++ v :: above ++ [last])) idx valid
   = (NumNode (-1), valid')) /\
  (node_max valid' <> SInt 0 ->
   ST__expr_idx _merge_dims (mkST (below ++ v :: above ++ [last])) idx valid
   = ST__expr_idx _merge_dims (mkST (below ++ [last]))
       (expr_node _merge_dims v (Some idx'))
       (node_ands (valid' :: mask_terms v idx'))).
Proof.
  unfold ST__expr_idx. simpl.
  replace (below ++ v :: above ++ [last])
    with ((below ++ v :: above) ++ [last])
    by (first [apply (app_assoc below (v :: above) [last])
              | symmetry; apply (app_assoc below (v :: above) [last])]).
  rewrite !removelast_last, rev_app_distr. simpl.
  rewrite <- app_assoc. simpl. intros E.
  rewrite expr_idx_loop_app, E. simpl. split; intros M.
  - apply sint_eqb_eq in M. now rewrite M.
  - apply sint_eqb_neq in M. rewrite M.
    now rewrite expr_node_mask_Some.
Qed.

(** ** [real_strides] *)











End TrackerFacts.

(** * Instances on the modelled collaborators *)

(** A rank-0 view that carries the empty mask, and a broadcast view. *)
Definition scalar_masked : View CNode := mkView [] [] (SInt 0) (Some []) false.
Definition broadcast2 : View CNode := mkView [SInt 2] [SInt 0] (SInt 0) None false.

(** [from_shape((4,)).pad(((1,1),))]: shape [(6,)], offset [-1], mask [(1,5)]. *)
Definition padded4 : View CNode :=
  mkView [SInt 6] [SInt 1] (SInt (-1)) (Some [(SInt 1, SInt 5)]) false.

Definition row4 : View CNode := c_create [SInt 4] None (SInt 0) None.
Definition row8 : View CNode := c_create [SInt 8] None (SInt 0) None.
Definition grid23 : View CNode := c_create [SInt 2; SInt 3] None (SInt 0) None.

(** C2, the claim as stated fails: the outer view carries a mask (the empty
    one, of a rank-0 view), neither of the first two cases applies, and the
    merge is not rejected. *)
Lemma merge_views_empty_mask_accepted :
  mask scalar_masked = Some [] /\
  contiguous scalar_masked = false /\
  contiguous broadcast2 = false /\
  c_merge_views scalar_masked broadcast2 = Ok (Some broadcast2).
Proof. repeat split. Qed.

Lemma merge_views_cases_witness :
  c_merge_views grid23 grid23 = Ok (Some grid23) /\
  c_merge_views row4 padded4 = Ok (Some padded4) /\
  c_merge_views padded4 row8 = Ok None.
Proof.
  destruct (merge_views_cases c_create merge_dims_spec grid23 grid23) as (A & _ & _).
  destruct (merge_views_cases c_create merge_dims_spec row4 padded4) as (_ & B & _).
  destruct (merge_views_cases c_create merge_dims_spec padded4 row8) as (_ & _ & C).
  split; [|split].
  - apply A; reflexivity.
  - apply B; [intros [E _]; discriminate | reflexivity].
  - apply C; [intros [_ E]; discriminate | reflexivity |].
    left. exists (SInt 1, SInt 5), []. reflexivity.
Defined.

Lemma simplify_shape_witness :
  exists st', c_simplify (mkST [row4; padded4]) = Ok st' /\
              ST_shape st' = ST_shape (mkST [row4; padded4]).
Proof.
  apply (simplify_shape c_create merge_dims_spec).
  intros shp st off m. reflexivity.
Defined.

Lemma expr_idxs_rank_contract_witness :
  (length [CNum 0] <> length (shape grid23) ->
   c_expr_idxs (mkST [grid23]) (Some [CNum 0]) = Raise AssertionError /\
   expr_idxs grid23 [CNum 0] = Raise AssertionError /\
   idxs_to_idx (shape grid23) [CNum 0] = Raise AssertionError) /\
  (length [CNum 0] = length (shape grid23) ->
   exists r, c_expr_idxs (mkST [grid23]) (Some [CNum 0]) = Ok r).
Proof.
  apply (expr_idxs_rank_contract merge_dims_spec (mkST [grid23]) (v:=grid23)).
  reflexivity.
Defined.

Lemma expr_idx_short_circuit_witness :
  (node_max (CAnd [CNum 0]) = SInt 0 ->
   ST__expr_idx merge_dims_spec (mkST ([] ++ row4 :: [] ++ [row8]))
     (CVar "idx0" 0 7) (CAnd [CNum 0])
   = (NumNode (-1), CAnd [CNum 0])) /\
  (node_max (CAnd [CNum 0]) <> SInt 0 ->
   ST__expr_idx merge_dims_spec (mkST ([] ++ row4 :: [] ++ [row8]))
     (CVar "idx0" 0 7) (CAnd [CNum 0])
   = ST__expr_idx merge_dims_spec (mkST ([] ++ [row8]))
       (expr_node merge_dims_spec row4 (Some (CVar "idx0" 0 7)))
       (node_ands (CAnd [CNum 0] :: mask_terms row4 (CVar "idx0" 0 7)))).
Proof.
  apply (expr_idx_short_circuit merge_dims_spec [] [] row4 row8
           (CVar "idx0" 0 7) (CAnd [CNum 0])).
  reflexivity.
Defined.


(** * [permute] and the inverse axis order *)

Section PermuteFacts.

Lemma nodupb_NoDup (l : list nat) : nodupb l = true <-> NoDup l.
Proof.
  induction l as [|x l IH]; simpl.
  - split; [constructor | reflexivity].
  - rewrite andb_true_iff, negb_true_iff, IH. split.
    + intros [E N]. constructor; auto. intros I.
      assert (existsb (Nat.eqb x) l = true) as C; [|congruence].
      apply existsb_exists. exists x. split; auto. apply Nat.eqb_refl.
    + intros N. inversion N as [|? ? NI N']; subst. split; auto.
      apply not_true_is_false. intros E. apply existsb_exists in E.
      destruct E as (y & I & E). apply Nat.eqb_eq in E. subst. auto.
Qed.

Lemma is_axis_order_spec (p : list nat) (n : nat) :
  is_axis_order p n = true <->
  length p = n /\ Forall (fun a => a < n)%nat p /\ NoDup p.
Proof.
  unfold is_axis_order.
  rewrite !andb_true_iff, Nat.eqb_eq, forallb_forall, nodupb_NoDup, Forall_forall.
  split.
  - intros [[L F] N]. repeat split; auto. intros a I. now apply Nat.ltb_lt, F.
  - intros (L & F & N). repeat split; auto. intros a I. now apply Nat.ltb_lt, F.
Qed.

(** An axis order mentions every dimension index. *)
Lemma axis_order_In (p : list nat) (n i : nat) :
  is_axis_order p n = true -> (i < n)%nat -> In i p.
Proof.
  intros A L. apply is_axis_order_spec in A. destruct A as (Len & F & N).
  apply (NoDup_length_incl N (l' := seq 0 n)).
  - rewrite length_seq. lia.
  - intros a I. apply in_seq. rewrite Forall_forall in F. specialize (F a I). lia.
  - apply in_seq. lia.
Qed.

Lemma position_nth (a : nat) (l : list nat) :
  In a l -> nth_error l (position a l) = Some a /\ (position a l < length l)%nat.
Proof.
  induction l as [|x l IH]; simpl; [tauto|].
  destruct (Nat.eqb x a) eqn:E.
  - apply Nat.eqb_eq in E. subst. intros _. simpl. split; auto. lia.
  - intros [->|I]; [rewrite Nat.eqb_refl in E; discriminate|].
    destruct (IH I) as [E1 E2]. simpl. split; auto. lia.
Qed.

Lemma nth_error_invert_axis (p : list nat) (i : nat) :
  (i < length p)%nat -> nth_error (invert_axis p) i = Some (position i p).
Proof.
  intros L. unfold invert_axis.
  rewrite nth_error_map, nth_error_seq.
  destruct (Nat.ltb_spec i (length p)); [reflexivity|lia].
Qed.

Lemma invert_axis_order (p : list nat) (n : nat) :
  is_axis_order p n = true -> is_axis_order (invert_axis p) n = true.
Proof.
  intros A. pose proof A as A'. apply is_axis_order_spec in A'.
  destruct A' as (Len & F & N). apply is_axis_order_spec.
  unfold invert_axis. repeat split.
  - now rewrite length_map, length_seq.
  - apply Forall_forall. intros a I. apply in_map_iff in I.
    destruct I as (i & <- & I). apply in_seq in I.
    destruct (position_nth i p) as [_ L]; [apply (@axis_order_In p n _ A); lia|]. lia.
  - apply Injective_map_NoDup_in; [|apply seq_NoDup].
    intros i j Ii Ij E. apply in_seq in Ii, Ij.
    destruct (position_nth i p) as [Ei _]; [apply (@axis_order_In p n _ A); lia|].
    destruct (position_nth j p) as [Ej _]; [apply (@axis_order_In p n _ A); lia|].
    rewrite E in Ei. congruence.
Qed.

Lemma nth_error_pick {A : Type} (l : list A) (p : list nat) (j : nat) :
  Forall (fun a => a < length l)%nat p ->
  nth_error (pick l p) j =
  match nth_error p j with
  | Some a => nth_error l a
  | None => None
  end.
Proof.
  intros F. revert j. induction F as [|a p La F IH]; intros j.
  - simpl. now destruct j.
  - unfold pick. simpl. fold (pick l p).
    destruct (nth_error l a) as [x|] eqn:E.
    + destruct j; simpl; auto.
    + apply nth_error_None in E. lia.
Qed.

Lemma length_pick {A : Type} (l : list A) (p : list nat) :
  Forall (fun a => a < length l)%nat p -> length (pick l p) = length p.
Proof.
  intros F. induction F as [|a p La F IH]; [reflexivity|].
  unfold pick. simpl. fold (pick l p).
  destruct (nth_error l a) as [x|] eqn:E; simpl; [now rewrite IH|].
  apply nth_error_None in E. lia.
Qed.

(** Reordering by [p] and then by the inverse of [p] gives the list back. *)
Lemma pick_invert {A : Type} (l : list A) (p : list nat) :
  is_axis_order p (length l) = true ->
  pick (pick l p) (invert_axis p) = l.
Proof.
  intros Ax. pose proof (@invert_axis_order p _ Ax) as Aq.
  pose proof Ax as Ax'. apply is_axis_order_spec in Ax'.
  destruct Ax' as (Lp & Fp & Np).
  pose proof Aq as Aq'. apply is_axis_order_spec in Aq'.
  destruct Aq' as (Lq & Fq & Nq).
  assert (Lpick : length (pick l p) = length l) by (rewrite length_pick; auto).
  apply nth_error_ext. intros i.
  rewrite nth_error_pick by (now rewrite Lpick).
  destruct (Nat.ltb_spec i (length l)) as [Li|Li].
  - rewrite nth_error_invert_axis by lia.
    rewrite nth_error_pick by auto.
    destruct (position_nth i p) as [E _]; [now apply (@axis_order_In p (length l) i Ax)|].
    now rewrite E.
  - assert (nth_error (invert_axis p) i = None) as ->
        by (apply nth_error_None; lia).
    symmetry. now apply nth_error_None.
Qed.

End PermuteFacts.

Section PermuteRoundTrip.

Context {Node : Type} `{NodeOps Node}.

#[local] Abbreviation sint := (sint Node).

Variable View_create :
  list sint -> option (list sint) -> sint -> option (list (sint * sint)) -> View Node.
Variable _merge_dims : list sint -> list sint -> list (sint * sint * sint).

(** What [permute] relies on from [View.create]: the view it returns has the
    shape, offset and mask it was given, and the strides it was given at
    every dimension whose size is not 1. *)
Hypothesis create_shape : forall shp st off m,
  shape (View_create shp st off m) = shp.
Hypothesis create_offset : forall shp st off m,
  offset (View_create shp st off m) = off.
Hypothesis create_mask : forall shp st off m,
  mask (View_create shp st off m) = m.
Hypothesis create_strides : forall shp st off m,
  length st = length shp ->
  length (strides (View_create shp (Some st) off m)) = length shp /\
  forall i sh, nth_error shp i = Some sh -> sh <> SInt 1 ->
               nth_error (strides (View_create shp (Some st) off m)) i
               = nth_error st i.

#[local] Abbreviation permute := (ST_permute (View_permute_spec View_create)).

(** The terms of [expr_idxs] read the strides at dimensions of size other
    than 1 only. *)
Lemma zip3_filter_ext (idxs : list Node) (shp st st' : list sint) :
  length st = length shp -> length st' = length shp ->
  (forall i sh, nth_error shp i = Some sh -> sh <> SInt 1 ->
                nth_error st' i = nth_error st i) ->
  let keep := fun t : Node * sint * sint =>
                match t with (_, sh, s) =>
                  negb (sint_eqb sh (SInt 1)) && negb (sint_eqb s (SInt 0)) end in
  filter keep (zip3 idxs shp st') = filter keep (zip3 idxs shp st).
Proof.
  intros L L' E keep. revert idxs st st' L L' E.
  induction shp as [|sh shp IH]; intros [|x idxs] [|s st] [|s' st'] L L' E;
    simpl in *; try discriminate; try reflexivity.
  rewrite (IH idxs st st'); try lia.
  - destruct (sint_eqb sh (SInt 1)) eqn:S1; simpl; [reflexivity|].
    assert (s' = s) as ->; [|reflexivity].
    specialize (E O sh eq_refl). simpl in E.
    assert (Some s' = Some s) as Es; [|now inversion Es].
    apply E. now apply sint_eqb_neq.
  - intros i sh0 Ei N. exact (E (S i) sh0 Ei N).
Qed.

Lemma removelast_snoc {A : Type} (l : list A) (x : A) :
  removelast (l ++ [x]) = l.
Proof. apply removelast_last. Qed.

(** C5.  For a tracker whose last view has as many strides (and mask
    entries) as dimensions, and an axis order [p]: [permute(p)] and then
    [permute(invert(p))] both succeed, and the tracker they give derives, from
    any index expressions (or from its own index variables), the very offset
    and validity expressions of the tracker they started from. *)
Theorem permute_round_trip (st : ShapeTracker Node) (v : View Node)
    (p : list nat) :
  get_last (views st) = Ok v ->
  length (strides v) = length (shape v) ->
  (forall m, mask v = Some m -> length m = length (shape v)) ->
  is_axis_order p (length (shape v)) = true ->
  exists st1 st2,
    permute st p = Ok st1 /\
    permute st1 (invert_axis p) = Ok st2 /\
    ST_shape st2 = ST_shape st /\
    forall idxs,
      ST_expr_idxs _merge_dims st2 idxs = ST_expr_idxs _merge_dims st idxs.
Proof.
  intros L LS LM Ax.
  pose proof Ax as Ax'. apply is_axis_order_spec in Ax'.
  destruct Ax' as (Lp & Fp & Np).
  apply get_last_Ok in L. destruct L as [below Vs].
  set (v1 := View_create (pick (shape v) p) (Some (pick (strides v) p))
               (offset v) (option_map (fun m => pick m p) (mask v))).
  set (q := invert_axis p).
  set (v2 := View_create (pick (shape v1) q) (Some (pick (strides v1) q))
               (offset v1) (option_map (fun m => pick m q) (mask v1))).
  assert (Sh1 : shape v1 = pick (shape v) p) by apply create_shape.
  assert (Lsh1 : length (shape v1) = length (shape v)).
  { rewrite Sh1, length_pick; auto. }
  assert (Aq : is_axis_order q (length (shape v1)) = true).
  { rewrite Lsh1. now apply invert_axis_order. }
  exists (mkST (below ++ [v1])), (mkST (below ++ [v2])).
  assert (Sh2 : shape v2 = shape v).
  { unfold v2. rewrite create_shape, Sh1. now apply pick_invert. }
  assert (Off2 : offset v2 = offset v).
  { unfold v2, v1. now rewrite !create_offset. }
  assert (M2 : mask v2 = mask v).
  { unfold v2. rewrite create_mask. unfold v1. rewrite create_mask.
    destruct (mask v) as [m|] eqn:M; simpl; [|reflexivity].
    f_equal. apply pick_invert. now rewrite (LM m eq_refl). }
  repeat split.
  - unfold ST_permute, View_permute_spec. rewrite Vs, get_last_app. simpl.
    rewrite Ax. simpl. now rewrite removelast_snoc.
  - unfold ST_permute, View_permute_spec. simpl. rewrite get_last_app. simpl.
    rewrite Aq. simpl. now rewrite removelast_snoc.
  - unfold ST_shape. simpl. rewrite Vs, !get_last_app. simpl. now rewrite Sh2.
  - intros idxs. unfold ST_expr_idxs, ST__expr_idx. simpl.
    rewrite Vs, !get_last_app, !removelast_snoc. simpl.
    rewrite Sh2.
    set (ix := match idxs with
               | Some l => l
               | None => idx_variables 0 (shape v)
               end).
    assert (E1 : expr_idxs v2 ix = expr_idxs v ix).
    { unfold expr_idxs, idx_terms. rewrite Sh2, Off2.
      destruct (Nat.eqb (length ix) (length (shape v))); [|reflexivity].
      do 4 f_equal.
      assert (P1 : length (pick (strides v) p) = length (pick (shape v) p)).
      { rewrite !length_pick; auto. now rewrite LS. }
      pose proof (create_strides (pick (shape v) p) (pick (strides v) p)
                    (offset v) (option_map (fun m => pick m p) (mask v)) P1)
        as C1.
      fold v1 in C1. destruct C1 as [Ls1 St1].
      assert (Lq : Forall (fun a => a < length (strides v1))%nat q).
      { apply is_axis_order_spec in Aq. destruct Aq as (_ & Fq & _).
        rewrite Ls1, <- Sh1. exact Fq. }
      assert (P2 : length (pick (strides v1) q) = length (pick (shape v1) q)).
      { rewrite !length_pick; auto.
        apply is_axis_order_spec in Aq. tauto. }
      pose proof (create_strides (pick (shape v1) q) (pick (strides v1) q)
                    (offset v1) (option_map (fun m => pick m q) (mask v1)) P2)
        as C2.
      fold v2 in C2. destruct C2 as [Ls2 St2].
      assert (Pq : pick (shape v1) q = shape v).
      { rewrite Sh1. unfold q. now apply pick_invert. }
      rewrite Pq in Ls2, St2.
      apply zip3_filter_ext; auto.
      intros i sh Ei N.
      assert (Li : (i < length (shape v))%nat).
      { apply nth_error_Some. congruence. }
      rewrite (St2 i sh Ei N).
      rewrite nth_error_pick by exact Lq.
      unfold q. rewrite nth_error_invert_axis by lia.
      destruct (position_nth i p) as [Ep Lpos];
        [now apply (@axis_order_In p (length (shape v)) i Ax)|].
      rewrite (St1 (position i p) sh).
      + rewrite nth_error_pick by (now rewrite LS). now rewrite Ep.
      + rewrite nth_error_pick by auto. now rewrite Ep.
      + exact N. }
    rewrite E1.
    destruct (expr_idxs v ix) as [idx|e]; [simpl|reflexivity].
    destruct (idxs_to_idx (shape v) ix) as [flat|e]; [simpl|reflexivity].
    do 2 f_equal. unfold expr_node_mask. now rewrite M2, Sh2.
Qed.

End PermuteRoundTrip.

Lemma c_create_strides (shp st : list (sint CNode)) (off : sint CNode)
    (m : option (list (sint CNode * sint CNode))) :
  length st = length shp ->
  length (strides (c_create shp (Some st) off m)) = length shp /\
  forall i sh, nth_error shp i = Some sh -> sh <> SInt 1 ->
               nth_error (strides (c_create shp (Some st) off m)) i
               = nth_error st i.
Proof. intros L. simpl. auto. Qed.

Lemma permute_round_trip_witness :
  exists st1 st2,
    c_st_permute (c_from_shape [2; 3]) [1; 0]%nat = Ok st1 /\
    c_st_permute st1 (invert_axis [1; 0]%nat) = Ok st2 /\
    ST_shape st2 = ST_shape (c_from_shape [2; 3]) /\
    forall idxs,
      c_expr_idxs st2 idxs = c_expr_idxs (c_from_shape [2; 3]) idxs.
Proof.
  apply (permute_round_trip c_create merge_dims_spec
           (fun _ _ _ _ => eq_refl) (fun _ _ _ _ => eq_refl)
           (fun _ _ _ _ => eq_refl) c_create_strides
           (c_from_shape [2; 3]) (v:=grid23)).
  - reflexivity.
  - reflexivity.
  - intros m E. discriminate.
  - reflexivity.
Defined.

(** * The modelled algebra: bounds are sound *)

Section CNodeInduction.

Variable P : CNode -> Prop.
Hypothesis HVar : forall x lo hi, P (CVar x lo hi).
Hypothesis HNum : forall b, P (CNum b).
Hypothesis HMul : forall a b, P a -> P b -> P (CMul a b).
Hypothesis HDiv : forall a b, P a -> P b -> P (CDiv a b).
Hypothesis HMod : forall a b, P a -> P b -> P (CMod a b).
Hypothesis HLt : forall a b, P a -> P b -> P (CLt a b).
Hypothesis HGe : forall a b, P a -> P b -> P (CGe a b).
Hypothesis HSum : forall l, Forall P l -> P (CSum l).
Hypothesis HAnd : forall l, Forall P l -> P (CAnd l).

Fixpoint CNode_nested_ind (n : CNode) : P n :=
  match n with
  | CVar x lo hi => HVar x lo hi
  | CNum b => HNum b
  | CMul a b => HMul (CNode_nested_ind a) (CNode_nested_ind b)
  | CDiv a b => HDiv (CNode_nested_ind a) (CNode_nested_ind b)
  | CMod a b => HMod (CNode_nested_ind a) (CNode_nested_ind b)
  | CLt a b => HLt (CNode_nested_ind a) (CNode_nested_ind b)
  | CGe a b => HGe (CNode_nested_ind a) (CNode_nested_ind b)
  | CSum l =>
      HSum ((fix go (l : list CNode) : Forall P l :=
               match l with
               | [] => Forall_nil P
               | x :: l' => Forall_cons x (CNode_nested_ind x) (go l')
               end) l)
  | CAnd l =>
      HAnd ((fix go (l : list CNode) : Forall P l :=
               match l with
               | [] => Forall_nil P
               | x :: l' => Forall_cons x (CNode_nested_ind x) (go l')
               end) l)
  end.

End CNodeInduction.

(** An assignment respects the range of every variable of the expression. *)
Definition env_ok (rho : string -> Z) (n : CNode) : Prop :=
  forall x lo hi, In (CVar x lo hi) (cvars n) -> lo <= rho x <= hi.

Lemma mul_interval (a b la ha lb hb : Z) :
  la <= a <= ha -> lb <= b <= hb ->
  min4 (la * lb) (la * hb) (ha * lb) (ha * hb) <= a * b
  <= max4 (la * lb) (la * hb) (ha * lb) (ha * hb).
Proof.
  intros A B. unfold min4, max4.
  assert (S : forall l h x y, l <= x <= h ->
              Z.min (l * y) (h * y) <= x * y <= Z.max (l * y) (h * y)).
  { clear. intros l h x y X. destruct (Z.le_ge_cases 0 y).
    - assert (l * y <= x * y) by (apply Z.mul_le_mono_nonneg_r; lia).
      assert (x * y <= h * y) by (apply Z.mul_le_mono_nonneg_r; lia). lia.
    - assert (h * y <= x * y) by (apply Z.mul_le_mono_nonpos_r; lia).
      assert (x * y <= l * y) by (apply Z.mul_le_mono_nonpos_r; lia). lia. }
  pose proof (S la ha a b A) as S1.
  pose proof (S lb hb b la B) as S2.
  pose proof (S lb hb b ha B) as S3.
  rewrite (Z.mul_comm lb la), (Z.mul_comm hb la), (Z.mul_comm b la) in S2.
  rewrite (Z.mul_comm lb ha), (Z.mul_comm hb ha), (Z.mul_comm b ha) in S3.
  lia.
Qed.

Lemma abs_div_le (a b : Z) : Z.abs (a / b) <= Z.abs a.
Proof.
  destruct (Z.eq_dec b 0) as [->|N].
  - rewrite Z.div_0_r. simpl. apply Z.abs_nonneg.
  - assert (G : forall a b, 0 < b -> Z.abs (a / b) <= Z.abs a).
    { clear. intros a b B. destruct (Z.le_ge_cases 0 a) as [A|A].
      - pose proof (Z.div_pos a b A B). pose proof (Z.div_le_upper_bound a b a B).
        rewrite !Z.abs_eq by lia. nia.
      - pose proof (Z.div_le_lower_bound a b a B).
        assert (a / b <= 0).
        { apply Z.div_le_upper_bound; lia. }
        rewrite !Z.abs_neq by lia. nia. }
    destruct (Z.lt_ge_cases 0 b) as [B|B]; [now apply G|].
    rewrite <- (Z.div_opp_opp a b) by exact N.
    rewrite <- (Z.abs_opp a). apply G. lia.
Qed.

Lemma abs_mod_le (a b : Z) : Z.abs (a mod b) <= Z.max (Z.abs a) (Z.abs b).
Proof.
  destruct (Z.eq_dec b 0) as [->|N].
  - rewrite Z.mod_0_r. lia.
  - destruct (Z.lt_ge_cases 0 b) as [B|B].
    + pose proof (Z.mod_pos_bound a b B). lia.
    + pose proof (Z.mod_neg_bound a b). lia.
Qed.

Lemma env_ok_app (rho : string -> Z) (a b : CNode) (f : CNode -> CNode -> CNode) :
  cvars (f a b) = cvars a ++ cvars b ->
  env_ok rho (f a b) -> env_ok rho a /\ env_ok rho b.
Proof.
  intros E O. unfold env_ok in *. rewrite E in O.
  split; intros x lo hi I; apply O, in_or_app; auto.
Qed.

Lemma env_ok_list (rho : string -> Z) (l : list CNode) :
  (forall x lo hi, In (CVar x lo hi) (flat_map cvars l) -> lo <= rho x <= hi) ->
  Forall (env_ok rho) l.
Proof.
  intros O. apply Forall_forall. intros n I x lo hi Ix.
  apply O, in_flat_map. eauto.
Qed.

(** The value of an expression lies within its static bounds. *)
Theorem cbounds_sound (rho : string -> Z) (n : CNode) :
  env_ok rho n ->
  fst (cbounds n) <= ceval rho n <= snd (cbounds n).
Proof.
  induction n as [x lo hi | b | a b IHa IHb | a b IHa IHb | a b IHa IHb
                 | a b IHa IHb | a b IHa IHb | l IH | l IH]
    using CNode_nested_ind; intros O.
  - simpl. apply (O x lo hi). simpl. auto.
  - simpl. lia.
  - apply (@env_ok_app rho a b CMul eq_refl) in O. destruct O as [Oa Ob].
    specialize (IHa Oa). specialize (IHb Ob). simpl.
    destruct (cbounds a) as [la ha], (cbounds b) as [lb hb]. simpl in *.
    now apply mul_interval.
  - apply (@env_ok_app rho a b CDiv eq_refl) in O. destruct O as [Oa Ob].
    specialize (IHa Oa). specialize (IHb Ob). simpl.
    destruct (cbounds a) as [la ha], (cbounds b) as [lb hb]. simpl in *.
    destruct ((0 <=? la) && (0 <? lb)) eqn:G; simpl.
    + apply andb_prop in G. destruct G as [G1 G2].
      apply Z.leb_le in G1. apply Z.ltb_lt in G2. split.
      * transitivity (la / ceval rho b).
        -- apply Z.div_le_compat_l; lia.
        -- apply Z.div_le_mono; lia.
      * transitivity (ha / ceval rho b).
        -- apply Z.div_le_mono; lia.
        -- apply Z.div_le_compat_l; lia.
    + pose proof (abs_div_le (ceval rho a) (ceval rho b)). lia.
  - apply (@env_ok_app rho a b CMod eq_refl) in O. destruct O as [Oa Ob].
    specialize (IHa Oa). specialize (IHb Ob). simpl.
    destruct (cbounds a) as [la ha], (cbounds b) as [lb hb]. simpl in *.
    destruct (0 <? lb) eqn:G.
    + apply Z.ltb_lt in G.
      destruct ((0 <=? la) && (ha <? lb)) eqn:G'; simpl.
      * apply andb_prop in G'. destruct G' as [G1 G2].
        apply Z.leb_le in G1. apply Z.ltb_lt in G2.
        rewrite Z.mod_small by lia. lia.
      * pose proof (Z.mod_pos_bound (ceval rho a) (ceval rho b)). lia.
    + simpl. pose proof (abs_mod_le (ceval rho a) (ceval rho b)).
      unfold max4. lia.
  - apply (@env_ok_app rho a b CLt eq_refl) in O. destruct O as [Oa Ob].
    specialize (IHa Oa). specialize (IHb Ob). simpl.
    destruct (cbounds a) as [la ha], (cbounds b) as [lb hb]. simpl in *.
    destruct (ha <? lb) eqn:G1, (la <? hb) eqn:G2,
             (ceval rho a <? ceval rho b) eqn:G3; lia.
  - apply (@env_ok_app rho a b CGe eq_refl) in O. destruct O as [Oa Ob].
    specialize (IHa Oa). specialize (IHb Ob). simpl.
    destruct (cbounds a) as [la ha], (cbounds b) as [lb hb]. simpl in *.
    destruct (hb <=? la) eqn:G1, (lb <=? ha) eqn:G2,
             (ceval rho b <=? ceval rho a) eqn:G3; lia.
  - apply env_ok_list in O. simpl.
    induction l as [|x l IHl]; simpl; [lia|].
    inversion IH; subst. inversion O; subst.
    specialize (IHl H2 H4). specialize (H1 H3).
    destruct (cbounds x) as [lx hx]. simpl in *. lia.
  - apply env_ok_list in O. simpl. split.
    + destruct (forallb _ l) eqn:F.
      * assert (forallb (fun x => negb (ceval rho x =? 0)) l = true) as ->;
          [|lia].
        apply forallb_forall. intros x I.
        rewrite forallb_forall in F. specialize (F x I).
        rewrite Forall_forall in IH, O. specialize (IH x I (O x I)).
        destruct (cbounds x) as [lx hx]. simpl in *.
        apply negb_true_iff, Z.eqb_neq. lia.
      * destruct (forallb (fun x => negb (ceval rho x =? 0)) l); lia.
    + destruct (existsb _ l) eqn:E.
      * assert (forallb (fun x => negb (ceval rho x =? 0)) l = false) as ->;
          [|lia].
        apply existsb_exists in E. destruct E as (x & I & E).
        apply not_true_is_false. intros F.
        rewrite forallb_forall in F. specialize (F x I).
        rewrite Forall_forall in IH, O. specialize (IH x I (O x I)).
        destruct (cbounds x) as [lx hx]. simpl in *.
        apply negb_true_iff, Z.eqb_neq in F. lia.
      * destruct (forallb (fun x => negb (ceval rho x =? 0)) l); lia.
Qed.

(** * Views with integer geometry and what they denote *)

Record ZView : Type := mkZView {
  zshape : list Z;
  zstrides : list Z;
  zoffset : Z;
  zmask : option (list (Z * Z));
  zcontiguous : bool
}.

Definition sint_pair (p : Z * Z) : sint CNode * sint CNode :=
  (SInt (fst p), SInt (snd p)).

Definition view_of (z : ZView) : View CNode :=
  mkView (map SInt (zshape z)) (map SInt (zstrides z)) (SInt (zoffset z))
    (option_map (map sint_pair) (zmask z)) (zcontiguous z).

(** [sum(x * s for x, s in zip(xs, st))]. *)
Definition dot (xs st : list Z) : Z :=
  fold_right (fun p s => fst p * snd p + s) 0 (combine xs st).

(** The address of the element at the index [xs]. *)
Definition view_addr (v : ZView) (xs : list Z) : Z :=
  zoffset v + dot xs (zstrides v).

(** The running products [1, d_n, d_n * d_(n-1), ...]. *)
Fixpoint accsZ (l : list Z) (init : Z) : list Z :=
  init :: match l with
          | [] => []
          | x :: l' => accsZ l' (init * x)
          end.

(** The row-major position of the index [xs] in a shape. *)
Definition flat_index (shp xs : list Z) : Z :=
  dot (rev xs) (accsZ (rev (tl shp)) 1).

(** The index [xs] is within the shape. *)
Definition in_range (shp xs : list Z) : Prop :=
  Forall2 (fun d x => 0 <= x < d) shp xs.

(** Mixed-radix reading of a flat position [x]: the dimensions come last
    one first, as (size, stride). *)
Fixpoint mixed (rdims : list (Z * Z)) (acc x : Z) : Z :=
  match rdims with
  | [] => 0
  | (d, s) :: rest => (x / acc) mod d * s + mixed rest (acc * d) x
  end.

Definition view_addr_flat (v : ZView) (x : Z) : Z :=
  zoffset v + mixed (rev (combine (zshape v) (zstrides v))) 1 x.

Fixpoint mask_okb (rdm : list (Z * (Z * Z))) (acc x : Z) : bool :=
  match rdm with
  | [] => true
  | (d, (lo, hi)) :: rest =>
      (((lo =? 0) && (hi =? d))
       || ((lo <=? (x / acc) mod d) && ((x / acc) mod d <? hi)))
      && mask_okb rest (acc * d) x
  end.

Definition view_valid_flat (v : ZView) (x : Z) : bool :=
  match zmask v with
  | None => true
  | Some m => mask_okb (combine (rev (zshape v)) (rev m)) 1 x
  end.

(** An expression read as a condition. *)
Definition truth (rho : string -> Z) (n : CNode) : bool :=
  negb (ceval rho n =? 0).

Lemma ceval_CSum_app (rho : string -> Z) (l1 l2 : list CNode) :
  ceval rho (CSum (l1 ++ l2)) = ceval rho (CSum l1) + ceval rho (CSum l2).
Proof. simpl. induction l1 as [|x l1 IH]; simpl; lia. Qed.

Lemma truth_CAnd (rho : string -> Z) (l : list CNode) :
  truth rho (CAnd l) = forallb (truth rho) l.
Proof.
  unfold truth at 1. simpl. unfold truth.
  now destruct (forallb (fun x => negb (ceval rho x =? 0)) l).
Qed.

Lemma zip3_map_SInt (idxs : list CNode) (shp st : list Z) :
  zip3 idxs (map SInt shp) (map SInt st)
  = map (fun t => match t with
                  | (i, d, s) => (i, SInt d : sint CNode, SInt s : sint CNode)
                  end)
      (zip3 idxs shp st).
Proof.
  revert shp st. induction idxs as [|i idxs IH]; intros [|d shp] [|s st];
    simpl; auto. now rewrite IH.
Qed.

(** The offset expression of a view evaluates to the address of the index. *)
Lemma ceval_expr_idxs (rho : string -> Z) (v : ZView) (idxs : list CNode) :
  length idxs = length (zshape v) ->
  length (zstrides v) = length (zshape v) ->
  in_range (zshape v) (map (ceval rho) idxs) ->
  exists e, expr_idxs (view_of v) idxs = Ok e /\
            ceval rho e = view_addr v (map (ceval rho) idxs).
Proof.
  intros L LS R. unfold expr_idxs. simpl. rewrite length_map, L, Nat.eqb_refl.
  eexists. split; [reflexivity|].
  unfold view_addr, idx_terms. cbn [ceval fold_right view_of shape strides].
  f_equal. rewrite zip3_map_SInt.
  destruct v as [shp st off m c]. simpl in *. clear off m c.
  revert shp st L LS R.
  induction idxs as [|i idxs IH]; intros [|d shp] [|s st] L LS R;
    simpl in *; try discriminate; try reflexivity.
  inversion R; subst.
  unfold dot. simpl. fold (dot (map (ceval rho) idxs) st).
  rewrite <- (IH shp st) by (auto; lia).
  destruct (d =? 1) eqn:D; simpl.
  - apply Z.eqb_eq in D. subst. assert (ceval rho i = 0) as -> by lia. lia.
  - destruct (s =? 0) eqn:S; simpl.
    + apply Z.eqb_eq in S. subst. lia.
    + lia.
Qed.

Lemma accumulate_mul_SInt (l : list Z) (init : Z) :
  accumulate_mul (map SInt l) (SInt init : sint CNode) = map SInt (accsZ l init).
Proof.
  revert init. induction l as [|x l IH]; intros init; simpl; [reflexivity|].
  f_equal. apply IH.
Qed.

(** The flattened index expression evaluates to the row-major position. *)
Lemma ceval_idxs_to_idx (rho : string -> Z) (shp : list Z) (idxs : list CNode) :
  length idxs = length shp ->
  exists e, idxs_to_idx (map SInt shp) idxs = Ok e /\
            ceval rho e = flat_index shp (map (ceval rho) idxs).
Proof.
  intros L. unfold idxs_to_idx. rewrite length_map, L, Nat.eqb_refl.
  eexists. split; [reflexivity|].
  unfold flat_index.
  replace (tl (map SInt shp)) with (map (@SInt CNode) (tl shp))
    by (now destruct shp).
  rewrite <- !map_rev, accumulate_mul_SInt.
  generalize (accsZ (rev (tl shp)) 1). generalize (rev idxs).
  clear. intros l accs. revert accs.
  induction l as [|i l IH]; intros [|a accs]; simpl; try reflexivity.
  unfold dot. simpl. fold (dot (map (ceval rho) l) accs).
  specialize (IH accs). simpl in IH. now rewrite IH.
Qed.

Lemma merge_dims_spec_SInt (shp st : list Z) :
  merge_dims_spec (map SInt shp) (map SInt st)
  = map (fun p => (SInt (fst p) : sint CNode, SInt (snd p) : sint CNode,
                   SInt (fst p) : sint CNode))
      (combine shp st).
Proof.
  unfold merge_dims_spec. revert st.
  induction shp as [|d shp IH]; intros [|s st]; simpl; auto.
  f_equal. apply IH.
Qed.

Lemma ceval_node_loop (rho : string -> Z) (e : CNode) (rd : list (Z * Z)) :
  forall (acc : Z) (ret : list CNode),
    ceval rho (CSum (node_loop e
                       (map (fun p => (SInt (fst p) : sint CNode,
                                       SInt (snd p) : sint CNode,
                                       SInt (fst p) : sint CNode)) rd)
                       (SInt acc) ret))
    = ceval rho (CSum ret) + mixed rd acc (ceval rho e).
Proof.
  induction rd as [|[d s] rd IH]; intros acc ret.
  - simpl. lia.
  - cbn [map node_loop fst snd mixed sint_mul]. rewrite IH, ceval_CSum_app.
    simpl. lia.
Qed.

(** The offset a view derives from a flat index expression evaluates to the
    mixed-radix reading of the value of that expression. *)
Lemma ceval_expr_node (rho : string -> Z) (v : ZView) (e : CNode) :
  ceval rho (expr_node merge_dims_spec (view_of v) (Some e))
  = view_addr_flat v (ceval rho e).
Proof.
  unfold expr_node, view_addr_flat. cbn [view_of shape strides offset].
  rewrite merge_dims_spec_SInt, <- map_rev.
  change (node_sum ?l) with (CSum l).
  rewrite ceval_node_loop. f_equal.
  cbn [sint_bool to_node NumNode CNodeOps].
  destruct (zoffset v =? 0) eqn:Z0; simpl.
  - apply Z.eqb_eq in Z0. lia.
  - lia.
Qed.

Lemma forallb_truth_mask_loop (rho : string -> Z) (e : CNode)
    (rdm : list (Z * (Z * Z))) :
  forall (acc : Z) (expr : list CNode),
    forallb (truth rho)
      (mask_loop e (map (fun t => (SInt (fst t) : sint CNode, sint_pair (snd t))) rdm)
         (SInt acc) expr)
    = forallb (truth rho) expr && mask_okb rdm acc (ceval rho e).
Proof.
  induction rdm as [|[d [lo hi]] rdm IH]; intros acc expr.
  - simpl. now rewrite andb_true_r.
  - cbn [map mask_loop fst snd sint_pair mask_okb sint_eqb sint_mul].
    rewrite IH. destruct ((lo =? 0) && (hi =? d)); simpl.
    + reflexivity.
    + rewrite forallb_app. cbn [forallb]. unfold truth at 2 3. simpl.
      rewrite andb_true_r.
      destruct (lo <=? (ceval rho e / acc) mod d),
               ((ceval rho e / acc) mod d <? hi); simpl;
        rewrite ?andb_true_r, ?andb_false_r; reflexivity.
Qed.

(** The validity a view derives from a flat index expression holds exactly
    when the flat position passes the mask (and the validity so far held). *)
Lemma truth_expr_node_mask (rho : string -> Z) (v : ZView) (e : CNode)
    (valid : option CNode) :
  truth rho (expr_node_mask (view_of v) e valid)
  = match valid with Some w => truth rho w | None => true end
    && view_valid_flat v (ceval rho e).
Proof.
  unfold expr_node_mask, view_valid_flat.
  change (node_ands ?l) with (CAnd l). rewrite truth_CAnd.
  cbn [view_of mask shape]. destruct (zmask v) as [m|]; simpl.
  - rewrite <- !map_rev.
    replace (combine (map SInt (rev (zshape v))) (map sint_pair (rev m)))
      with (map (fun t => (SInt (fst t) : sint CNode, sint_pair (snd t)))
              (combine (rev (zshape v)) (rev m))).
    + rewrite forallb_truth_mask_loop. destruct valid; simpl;
        rewrite ?andb_true_r; reflexivity.
    + generalize (rev (zshape v)), (rev m). clear.
      intros l1. induction l1 as [|x l1 IH]; intros [|y l2]; simpl; auto.
      now rewrite IH.
  - destruct valid; simpl; rewrite ?andb_true_r; reflexivity.
Qed.

(** * Mixed-radix arithmetic *)

(** The same readings with the last dimension first and no running
    product: [mixedLE] peels the flat position digit by digit, [flatLE]
    builds it from the digits. *)
Fixpoint mixedLE (rdims : list (Z * Z)) (x : Z) : Z :=
  match rdims with
  | [] => 0
  | (d, s) :: rest => x mod d * s + mixedLE rest (x / d)
  end.

Fixpoint flatLE (ys ds : list Z) : Z :=
  match ys, ds with
  | y :: ys', d :: ds' => y + d * flatLE ys' ds'
  | _, _ => 0
  end.


Definition product (l : list Z) : Z := fold_right Z.mul 1 l.

Lemma mixed_mixedLE (rdims : list (Z * Z)) (acc x : Z) :
  0 < acc -> Forall (fun p => 0 < fst p) rdims ->
  mixed rdims acc x = mixedLE rdims (x / acc).
Proof.
  intros A F. revert acc A. induction F as [|[d s] rest D F IH]; intros acc A.
  - reflexivity.
  - simpl in *. rewrite IH by nia. rewrite Z.div_div by lia. reflexivity.
Qed.


Lemma flatLE_range (ys ds : list Z) :
  Forall2 (fun d y => 0 <= y < d) ds ys ->
  0 <= flatLE ys ds < product ds.
Proof.
  intros F. induction F as [|d y ds ys R F IH]; simpl.
  - lia.
  - unfold product in *. nia.
Qed.

Lemma mixedLE_flatLE (ys ds ss : list Z) :
  Forall2 (fun d y => 0 <= y < d) ds ys ->
  length ss = length ds ->
  mixedLE (combine ds ss) (flatLE ys ds) = dot ys ss.
Proof.
  intros F. revert ss. induction F as [|d y ds ys R F IH]; intros [|s ss] L;
    simpl in *; try discriminate; try reflexivity.
  unfold dot. simpl. fold (dot ys ss).
  rewrite <- (IH ss) by lia.
  assert ((y + d * flatLE ys ds) mod d = y) as ->.
  { rewrite (Z.mul_comm d), Z.mod_add by lia. apply Z.mod_small. lia. }
  assert ((y + d * flatLE ys ds) / d = flatLE ys ds) as ->.
  { rewrite (Z.mul_comm d), Z.div_add by lia.
    rewrite Z.div_small by lia. lia. }
  reflexivity.
Qed.

Lemma dot_accsZ (ys ds : list Z) (a d1 : Z) :
  length ys = S (length ds) ->
  dot ys (accsZ ds a) = a * flatLE ys (ds ++ [d1]).
Proof.
  revert ys a. induction ds as [|d ds IH]; intros [|y ys] a L;
    simpl in *; try discriminate.
  - destruct ys; [|discriminate]. unfold dot. simpl. lia.
  - unfold dot. simpl. fold (dot ys (accsZ ds (a * d))).
    rewrite IH by lia. lia.
Qed.

Lemma flat_index_flatLE (shp xs : list Z) :
  length xs = length shp ->
  flat_index shp xs = flatLE (rev xs) (rev shp).
Proof.
  intros L. unfold flat_index. destruct shp as [|d1 shp].
  - destruct xs; [reflexivity|discriminate].
  - simpl tl. change (rev (d1 :: shp)) with (rev shp ++ [d1]).
    rewrite (dot_accsZ (rev xs) (rev shp) 1 d1).
    + apply Z.mul_1_l.
    + rewrite !length_rev. simpl in L. lia.
Qed.

Lemma dot_app (xs1 xs2 st1 st2 : list Z) :
  length xs1 = length st1 ->
  dot (xs1 ++ xs2) (st1 ++ st2) = dot xs1 st1 + dot xs2 st2.
Proof.
  revert st1. induction xs1 as [|x xs1 IH]; intros [|s st1] L;
    simpl in *; try discriminate; [reflexivity|].
  unfold dot in *. simpl. rewrite IH by lia. lia.
Qed.

Lemma dot_rev (xs st : list Z) :
  length xs = length st -> dot (rev xs) (rev st) = dot xs st.
Proof.
  revert st. induction xs as [|x xs IH]; intros [|s st] L;
    simpl in *; try discriminate; [reflexivity|].
  rewrite dot_app by (rewrite !length_rev; lia).
  rewrite IH by lia. unfold dot. simpl. lia.
Qed.

Lemma combine_snoc {A B : Type} (l1 : list A) (l2 : list B) (x : A) (y : B) :
  length l1 = length l2 ->
  combine (l1 ++ [x]) (l2 ++ [y]) = combine l1 l2 ++ [(x, y)].
Proof.
  revert l2. induction l1 as [|a l1 IH]; intros [|b l2] L;
    simpl in *; try discriminate; [reflexivity|].
  now rewrite IH by lia.
Qed.

Lemma combine_rev {A B : Type} (l1 : list A) (l2 : list B) :
  length l1 = length l2 ->
  rev (combine l1 l2) = combine (rev l1) (rev l2).
Proof.
  revert l2. induction l1 as [|x l1 IH]; intros [|y l2] L;
    simpl in *; try discriminate; [reflexivity|].
  rewrite IH by lia.
  rewrite combine_snoc by (rewrite !length_rev; lia). reflexivity.
Qed.

Lemma in_range_rev (shp xs : list Z) :
  in_range shp xs -> Forall2 (fun d y => 0 <= y < d) (rev shp) (rev xs).
Proof.
  intros F. induction F as [|d x shp xs R F IH]; simpl; [constructor|].
  apply Forall2_app; auto.
Qed.

Lemma in_range_length (shp xs : list Z) : in_range shp xs -> length xs = length shp.
Proof. intros F. symmetry. exact (Forall2_length F). Qed.

Lemma in_range_pos (shp xs : list Z) : in_range shp xs -> Forall (fun d => 0 < d) shp.
Proof.
  intros F. induction F as [|d x shp xs R F IH]; constructor; auto. lia.
Qed.

(** * Index variables and assignments *)

(** The values an assignment gives to the index variables [idx_i], ... *)
Fixpoint idx_values (rho : string -> Z) (i : nat) (n : nat) : list Z :=
  match n with
  | O => []
  | S n' => rho (idx_name i) :: idx_values rho (S i) n'
  end.

(** The assignment is an index of the shape. *)
Definition env_range (rho : string -> Z) (shp : list Z) : Prop :=
  in_range shp (idx_values rho 0 (length shp)).

Lemma ceval_idx_variables (rho : string -> Z) (shp : list Z) (i : nat) :
  map (ceval rho) (idx_variables i (map SInt shp)) = idx_values rho i (length shp).
Proof.
  revert i. induction shp as [|d shp IH]; intros i; simpl; [reflexivity|].
  now rewrite IH.
Qed.

Lemma idx_variables_vars (shp : list Z) (i : nat) :
  flat_map cvars (idx_variables i (map SInt shp)) = idx_variables i (map SInt shp).
Proof.
  revert i. induction shp as [|d shp IH]; intros i; simpl; [reflexivity|].
  now rewrite IH.
Qed.

Lemma idx_variables_env_ok (rho : string -> Z) (shp : list Z) (i : nat) :
  in_range shp (idx_values rho i (length shp)) ->
  forall x lo hi, In (CVar x lo hi) (idx_variables i (map SInt shp)) ->
                  lo <= rho x <= hi.
Proof.
  revert i. induction shp as [|d shp IH]; intros i R x lo hi I; simpl in *.
  - tauto.
  - inversion R; subst. destruct I as [E|I].
    + inversion E; subst. lia.
    + now apply (IH (S i)).
Qed.

(** Expressions built from index expressions mention their variables only. *)
Definition vars_within (n : CNode) (idxs : list CNode) : Prop :=
  incl (cvars n) (flat_map cvars idxs).

Lemma vars_within_env_ok (rho : string -> Z) (n : CNode) (idxs : list CNode) :
  vars_within n idxs ->
  (forall x lo hi, In (CVar x lo hi) (flat_map cvars idxs) -> lo <= rho x <= hi) ->
  env_ok rho n.
Proof. intros W O x lo hi I. apply O, W, I. Qed.

Lemma vars_expr_idxs (v : ZView) (idxs : list CNode) (e : CNode) :
  expr_idxs (view_of v) idxs = Ok e -> vars_within e idxs.
Proof.
  unfold expr_idxs.
  destruct (Nat.eqb _ _); [|discriminate]. intros E. inversion E; subst.
  unfold vars_within, idx_terms. cbn [node_sum CNodeOps cvars flat_map].
  cbn [view_of offset shape strides to_node NumNode app].
  rewrite zip3_map_SInt.
  generalize (zshape v), (zstrides v). clear.
  induction idxs as [|i idxs IH]; intros [|d shp] [|s st]; simpl;
    try apply incl_nil_l.
  destruct (negb (d =? 1) && negb (s =? 0)); simpl.
  - rewrite app_nil_r. apply incl_app_app; [apply incl_refl|apply IH].
  - apply incl_appr, IH.
Qed.

Lemma vars_idxs_to_idx (shp : list Z) (idxs : list CNode) (e : CNode) :
  idxs_to_idx (map SInt shp) idxs = Ok e -> vars_within e idxs.
Proof.
  unfold idxs_to_idx.
  destruct (Nat.eqb _ _); [|discriminate]. intros E. inversion E; subst.
  unfold vars_within. cbn [node_sum CNodeOps cvars].
  replace (tl (map SInt shp)) with (map (@SInt CNode) (tl shp))
    by (now destruct shp).
  rewrite <- map_rev, accumulate_mul_SInt.
  intros x I. apply in_flat_map in I. destruct I as (t & It & Ix).
  apply in_map_iff in It. destruct It as ([i a] & <- & Ic).
  pose proof (in_combine_r _ _ _ _ Ic) as Ia.
  apply in_combine_l in Ic. apply in_rev in Ic.
  apply in_map_iff in Ia. destruct Ia as (z & <- & _).
  simpl in Ix. rewrite app_nil_r in Ix.
  apply in_flat_map. exists i. split; auto.
Qed.

Lemma vars_node_loop (e : CNode) (rd : list (Z * Z)) :
  forall (acc : Z) (ret : list CNode),
    incl (flat_map cvars
            (node_loop e
               (map (fun p => (SInt (fst p) : sint CNode,
                               SInt (snd p) : sint CNode,
                               SInt (fst p) : sint CNode)) rd)
               (SInt acc) ret))
         (flat_map cvars ret ++ cvars e).
Proof.
  induction rd as [|[d s] rd IH]; intros acc ret.
  - simpl. apply incl_appl, incl_refl.
  - cbn [map node_loop fst snd sint_mul].
    eapply incl_tran; [apply IH|].
    rewrite flat_map_app. simpl. rewrite !app_nil_r.
    apply incl_app; [|apply incl_appr, incl_refl].
    apply incl_app; [apply incl_appl, incl_refl|apply incl_appr, incl_refl].
Qed.

Lemma vars_expr_node (v : ZView) (e : CNode) :
  incl (cvars (expr_node merge_dims_spec (view_of v) (Some e))) (cvars e).
Proof.
  unfold expr_node. cbn [view_of shape strides offset].
  rewrite merge_dims_spec_SInt, <- map_rev.
  change (node_sum ?l) with (CSum l). cbn [cvars].
  eapply incl_tran; [apply vars_node_loop|].
  apply incl_app; [|apply incl_refl].
  cbn [sint_bool to_node NumNode CNodeOps].
  destruct (negb (zoffset v =? 0)); simpl; apply incl_nil_l.
Qed.

Lemma vars_mask_loop (e : CNode) (rdm : list (Z * (Z * Z))) :
  forall (acc : Z) (expr : list CNode),
    incl (flat_map cvars
            (mask_loop e
               (map (fun t => (SInt (fst t) : sint CNode, sint_pair (snd t))) rdm)
               (SInt acc) expr))
         (flat_map cvars expr ++ cvars e).
Proof.
  induction rdm as [|[d [lo hi]] rdm IH]; intros acc expr.
  - simpl. apply incl_appl, incl_refl.
  - cbn [map mask_loop fst snd sint_pair sint_eqb sint_mul].
    destruct ((lo =? 0) && (hi =? d)).
    + apply IH.
    + eapply incl_tran; [apply IH|].
      rewrite flat_map_app. simpl. rewrite !app_nil_r.
      apply incl_app; [|apply incl_appr, incl_refl].
      apply incl_app; [apply incl_appl, incl_refl|].
      apply incl_app; apply incl_appr, incl_refl.
Qed.

Lemma combine_map_SInt_pair (l1 : list Z) (l2 : list (Z * Z)) :
  combine (map SInt l1) (map sint_pair l2)
  = map (fun t => (SInt (fst t) : sint CNode, sint_pair (snd t))) (combine l1 l2).
Proof.
  revert l2. induction l1 as [|x l1 IH]; intros [|y l2]; simpl; auto.
  now rewrite IH.
Qed.

Lemma vars_expr_node_mask (v : ZView) (e : CNode) (valid : option CNode) :
  incl (cvars (expr_node_mask (view_of v) e valid))
       (match valid with Some w => cvars w | None => [] end ++ cvars e).
Proof.
  unfold expr_node_mask. change (node_ands ?l) with (CAnd l). cbn [cvars].
  cbn [view_of mask shape]. destruct (zmask v) as [m|]; simpl.
  - rewrite <- !map_rev, combine_map_SInt_pair.
    eapply incl_tran; [apply vars_mask_loop|].
    apply incl_app; [|apply incl_appr, incl_refl].
    destruct valid; simpl; rewrite ?app_nil_r;
      [apply incl_appl, incl_refl | apply incl_nil_l].
  - destruct valid; simpl; rewrite ?app_nil_r;
      [apply incl_appl, incl_refl | apply incl_nil_l].
Qed.

(** * What a stack of integer views denotes *)

(** One step down the stack: the address becomes the flat position fed to
    the next view, the validity is conjoined with the mask of that view. *)
Fixpoint fold_views (vs : list ZView) (a : Z) (b : bool) : Z * bool :=
  match vs with
  | [] => (a, b)
  | v :: rest => fold_views rest (view_addr_flat v a) (b && view_valid_flat v a)
  end.


Lemma fold_views_false (vs : list ZView) (a : Z) : snd (fold_views vs a false) = false.
Proof. revert a. induction vs as [|v vs IH]; intros a; simpl; auto. Qed.

Lemma fold_views_app (vs ws : list ZView) (a : Z) (b : bool) :
  fold_views (vs ++ ws) a b
  = fold_views ws (fst (fold_views vs a b)) (snd (fold_views vs a b)).
Proof.
  revert a b. induction vs as [|v vs IH]; intros a b; simpl; auto.
Qed.

Lemma max_zero_false (rho : string -> Z) (l : list CNode) :
  env_ok rho (CAnd l) -> snd (cbounds (CAnd l)) = 0 -> truth rho (CAnd l) = false.
Proof.
  intros O M. pose proof (cbounds_sound O) as B. rewrite M in B.
  unfold truth. apply negb_false_iff, Z.eqb_eq.
  assert (0 <= ceval rho (CAnd l)); [|lia].
  simpl. destruct (forallb _ l); lia.
Qed.

Lemma sem_expr_idx_loop (rho : string -> Z) (vs : list ZView) :
  forall idx valid,
    (exists l, valid = CAnd l) -> env_ok rho idx -> env_ok rho valid ->
    let r := expr_idx_loop merge_dims_spec (map view_of vs) idx valid in
    let s := fold_views vs (ceval rho idx) (truth rho valid) in
    truth rho (snd r) = snd s /\ (snd s = true -> ceval rho (fst r) = fst s).
Proof.
  induction vs as [|v vs IH]; intros idx valid [l ->] Oi Ov.
  - simpl. auto.
  - cbn [map expr_idx_loop fold_views].
    change (node_max (CAnd l)) with (SInt (snd (cbounds (CAnd l))) : sint CNode).
    cbn [sint_eqb]. destruct (snd (cbounds (CAnd l)) =? 0) eqn:M.
    + apply Z.eqb_eq in M. rewrite (max_zero_false Ov M). simpl.
      rewrite fold_views_false. split; [|discriminate].
      now apply max_zero_false.
    + rewrite <- ceval_expr_node.
      rewrite <- (truth_expr_node_mask rho v idx (Some (CAnd l))).
      apply IH.
      * unfold expr_node_mask. change (node_ands ?x) with (CAnd x). eauto.
      * intros x lo hi I. apply (Oi x lo hi). now apply (vars_expr_node v idx).
      * intros x lo hi I.
        apply (vars_expr_node_mask v idx (Some (CAnd l))) in I.
        apply in_app_or in I. destruct I as [I|I]; [now apply Ov|now apply Oi].
Qed.


(** * Well-formed views *)



Lemma product_app (l1 l2 : list Z) : product (l1 ++ l2) = product l1 * product l2.
Proof.
  unfold product. induction l1 as [|x l1 IH]; cbn [app fold_right]; [lia|].
  rewrite IH. ring.
Qed.

Lemma product_rev (l : list Z) : product (rev l) = product l.
Proof.
  induction l as [|x l IH]; cbn [rev]; [reflexivity|].
  rewrite product_app, IH. unfold product. cbn [fold_right]. lia.
Qed.


Lemma Forall_fst_combine {B : Type} (P : Z -> Prop) (l1 : list Z) (l2 : list B) :
  Forall P l1 -> Forall (fun p => P (fst p)) (combine l1 l2).
Proof.
  intros F. revert l2. induction F as [|x l1 Px F IH]; intros [|y l2];
    simpl; constructor; auto.
Qed.


Lemma flat_index_range (shp xs : list Z) :
  in_range shp xs -> 0 <= flat_index shp xs < product shp.
Proof.
  intros R. rewrite flat_index_flatLE by now apply in_range_length.
  rewrite <- product_rev. apply flatLE_range. now apply in_range_rev.
Qed.

(** Reading the row-major position of an index gives back its address. *)
Lemma view_addr_flat_index (v : ZView) (xs : list Z) :
  length (zstrides v) = length (zshape v) ->
  in_range (zshape v) xs ->
  view_addr_flat v (flat_index (zshape v) xs) = view_addr v xs.
Proof.
  intros LS R. unfold view_addr_flat, view_addr. f_equal.
  pose proof (in_range_length R) as LX.
  pose proof (in_range_pos R) as Pos.
  rewrite mixed_mixedLE.
  - rewrite Z.div_1_r, flat_index_flatLE by exact LX.
    rewrite combine_rev by lia.
    rewrite mixedLE_flatLE.
    + apply dot_rev. lia.
    + now apply in_range_rev.
    + rewrite !length_rev. lia.
  - lia.
  - apply Forall_rev. now apply Forall_fst_combine.
Qed.



(** * Assignments that realise a given index *)







(** * The expressions of the last view *)

(** The index variables of a shape, and the offset and flat-index
    expressions of a view in them. *)
Definition zidxs (shp : list Z) : list CNode := idx_variables 0 (map SInt shp).

Lemma top_exprs (top : ZView) :
  exists e f,
    expr_idxs (view_of top) (zidxs (zshape top)) = Ok e /\
    idxs_to_idx (map SInt (zshape top)) (zidxs (zshape top)) = Ok f /\
    vars_within e (zidxs (zshape top)) /\
    vars_within f (zidxs (zshape top)).
Proof.
  assert (Li : length (zidxs (zshape top)) = length (zshape top)).
  { unfold zidxs. now rewrite idx_variables_length, length_map. }
  unfold expr_idxs, idxs_to_idx. cbn [view_of shape].
  rewrite length_map, Li, Nat.eqb_refl.
  eexists. eexists. split; [reflexivity|]. split; [reflexivity|]. split.
  - apply (vars_expr_idxs top). unfold expr_idxs. cbn [view_of shape].
    now rewrite length_map, Li, Nat.eqb_refl.
  - apply (vars_idxs_to_idx (zshape top)). unfold idxs_to_idx.
    now rewrite length_map, Li, Nat.eqb_refl.
Qed.

Lemma top_exprs_sem (rho : string -> Z) (top : ZView) (e f : CNode) :
  expr_idxs (view_of top) (zidxs (zshape top)) = Ok e ->
  idxs_to_idx (map SInt (zshape top)) (zidxs (zshape top)) = Ok f ->
  length (zstrides top) = length (zshape top) ->
  env_range rho (zshape top) ->
  let xs := idx_values rho 0 (length (zshape top)) in
  ceval rho e = view_addr top xs /\
  ceval rho f = flat_index (zshape top) xs /\
  truth rho (expr_node_mask (view_of top) f None)
  = view_valid_flat top (flat_index (zshape top) xs) /\
  env_ok rho e /\
  env_ok rho (expr_node_mask (view_of top) f None).
Proof.
  intros Ee Ef LS R xs.
  assert (Li : length (zidxs (zshape top)) = length (zshape top)).
  { unfold zidxs. now rewrite idx_variables_length, length_map. }
  assert (Ev : map (ceval rho) (zidxs (zshape top)) = xs)
    by apply ceval_idx_variables.
  assert (Ok_idxs : forall x lo hi,
             In (CVar x lo hi) (flat_map cvars (zidxs (zshape top))) ->
             lo <= rho x <= hi).
  { unfold zidxs. rewrite idx_variables_vars. now apply idx_variables_env_ok. }
  destruct (ceval_expr_idxs rho top (zidxs (zshape top)) Li LS) as (e' & Ee' & Ve).
  { rewrite Ev. exact R. }
  destruct (ceval_idxs_to_idx rho (zshape top) (zidxs (zshape top)) Li)
    as (f' & Ef' & Vf).
  assert (e' = e) as -> by congruence.
  assert (f' = f) as -> by congruence.
  rewrite Ev in Ve, Vf.
  split; [exact Ve|]. split; [exact Vf|]. split; [|split].
  - rewrite truth_expr_node_mask, Vf. reflexivity.
  - apply (@vars_within_env_ok rho e (zidxs (zshape top))); auto.
    now apply (vars_expr_idxs top).
  - apply (@vars_within_env_ok rho _ (zidxs (zshape top))); auto.
    intros x I. apply (vars_expr_node_mask top f None) in I. simpl in I.
    now apply (vars_idxs_to_idx (zshape top) _ Ef).
Qed.


(** The offset and validity expressions of a single view. *)
Lemma one_view_exprs (v : ZView) (e f : CNode) :
  expr_idxs (view_of v) (zidxs (zshape v)) = Ok e ->
  idxs_to_idx (map SInt (zshape v)) (zidxs (zshape v)) = Ok f ->
  c_expr_idxs (mkST [view_of v]) None
  = Ok (e, expr_node_mask (view_of v) f None).
Proof.
  intros Ee Ef. unfold c_expr_idxs, ST_expr_idxs, ST__expr_idx.
  cbn [views get_last rev app bind removelast].
  change (idx_variables 0 (shape (view_of v))) with (zidxs (zshape v)).
  rewrite Ee. cbn [bind].
  change (shape (view_of v)) with (map (@SInt CNode) (zshape v)).
  rewrite Ef. reflexivity.
Qed.

(** * [real_strides] of a stack of two views, in the modelled algebra *)










(** * Merging two integer views is sound *)














(** ** Instances of the merge *)

Definition zrow4 : ZView := mkZView [4] [1] 0 None true.
Definition zrow8 : ZView := mkZView [8] [1] 0 None true.
Definition zpadded4 : ZView := mkZView [6] [1] (-1) (Some [(1, 5)]) false.






(** * Stacks of views: simplification and composition *)
























(** ** [simplify] keeps what the tracker denotes *)




(** * [simplify] and [__add__] as operations on the stack *)

Section StackFacts.

Context {Node : Type} `{NodeOps Node}.

#[local] Abbreviation sint := (sint Node).

Variable View_create :
  list sint -> option (list sint) -> sint -> option (list (sint * sint)) -> View Node.
Variable _merge_dims : list sint -> list sint -> list (sint * sint * sint).

#[local] Abbreviation simplify := (ST_simplify View_create _merge_dims).
#[local] Abbreviation loop := (simplify_loop View_create _merge_dims).
#[local] Abbreviation add := (ST_add View_create _merge_dims).

(** The recursion stops on a stack it leaves alone. *)
Lemma simplify_loop_fixed (below : list (View Node)) :
  forall last vs,
    loop below last = Ok vs ->
    exists last' below', rev vs = last' :: below' /\ loop below' last' = Ok vs.
Proof.
  induction below as [|vm2 rest IH]; intros last vs E.
  - cbn [simplify_loop] in E. inversion E; subst. exists last, []. auto.
  - cbn [simplify_loop] in E.
    destruct (merge_views View_create _merge_dims vm2 last) as [[v|]|e] eqn:M;
      cbn [bind] in E.
    + now apply (IH v).
    + injection E as <-. exists last, (vm2 :: rest).
      split; [apply (rev_involutive (last :: vm2 :: rest))|].
      cbn [simplify_loop]. rewrite M. reflexivity.
    + discriminate.
Qed.

(** The recursion drops views from the top of the stack only. *)
Lemma simplify_loop_prefix (below : list (View Node)) :
  forall last vs,
    loop below last = Ok vs ->
    exists k v, vs = rev (skipn k below) ++ [v].
Proof.
  induction below as [|vm2 rest IH]; intros last vs E.
  - cbn [simplify_loop] in E. inversion E; subst. exists O, last. reflexivity.
  - cbn [simplify_loop] in E.
    destruct (merge_views View_create _merge_dims vm2 last) as [[v|]|e] eqn:M;
      cbn [bind] in E.
    + destruct (IH v vs E) as (k & v' & ->). exists (S k), v'. reflexivity.
    + inversion E; subst. exists O, last. reflexivity.
    + discriminate.
Qed.

(** [simplify] is idempotent: the tracker it returns is one it returns
    unchanged. *)
Theorem simplify_idempotent (st st' : ShapeTracker Node) :
  simplify st = Ok st' -> simplify st' = Ok st'.
Proof.
  unfold ST_simplify. destruct (rev (views st)) as [|last below] eqn:R.
  - intros E. inversion E; subst. rewrite R. reflexivity.
  - destruct (loop below last) as [vs|e] eqn:L; cbn [bind]; [|discriminate].
    intros E. inversion E; subst. cbn [views].
    destruct (simplify_loop_fixed _ _ L) as (last' & below' & -> & ->).
    reflexivity.
Qed.

(** [simplify] rewrites the top of the stack only: the views it returns are
    a proper prefix of the views it was given, followed by one view.  So it
    never adds a view, never empties a tracker, and leaves alone the views
    under the ones it merges. *)
Theorem simplify_prefix (st st' : ShapeTracker Node) :
  simplify st = Ok st' -> views st <> [] ->
  exists pre suf v,
    views st = pre ++ suf /\ suf <> [] /\ views st' = pre ++ [v].
Proof.
  unfold ST_simplify. intros E N.
  destruct (rev (views st)) as [|last below] eqn:R.
  - exfalso. apply N. rewrite <- (rev_involutive (views st)), R. reflexivity.
  - destruct (loop below last) as [vs|e] eqn:L; cbn [bind] in E; [|discriminate].
    inversion E; subst. cbn [views].
    destruct (simplify_loop_prefix _ _ L) as (k & v & ->).
    exists (rev (skipn k below)), (rev (firstn k below) ++ [last]), v.
    split; [|split; [|reflexivity]].
    + rewrite <- (rev_involutive (views st)), R. cbn [rev].
      rewrite <- (firstn_skipn k below) at 1.
      rewrite rev_app_distr, <- app_assoc. reflexivity.
    + intros C. apply app_eq_nil in C. destruct C as [_ C]. discriminate.
Qed.

(** The empty tracker is returned as it is. *)
Lemma simplify_empty : simplify (mkST []) = Ok (mkST []).
Proof. reflexivity. Qed.

Lemma add_loop_app (vs ws : list (View Node)) :
  forall ret,
    add_loop View_create _merge_dims ret (vs ++ ws)
    = (r <- add_loop View_create _merge_dims ret vs ;;
       add_loop View_create _merge_dims r ws).
Proof.
  induction vs as [|v vs IH]; intros ret; cbn [app add_loop bind]; [reflexivity|].
  destruct (simplify (mkST (views ret ++ [v]))) as [r|e]; cbn [bind]; auto.
Qed.

(** Adding the views of two trackers at once is adding the first tracker
    and then the second: [t + (u ++ w) = (t + u) + w]. *)
Theorem add_views_app (t : ShapeTracker Node) (us ws : list (View Node)) :
  add t (mkST (us ++ ws)) = (r <- add t (mkST us) ;; add r (mkST ws)).
Proof. unfold ST_add. cbn [views]. apply add_loop_app. Qed.

End StackFacts.

Lemma simplify_idempotent_witness :
  c_simplify (mkST [padded4]) = Ok (mkST [padded4]).
Proof.
  exact (@simplify_idempotent CNode CNodeOps c_create merge_dims_spec
           (mkST [row4; padded4]) (mkST [padded4]) eq_refl).
Defined.

Lemma simplify_prefix_witness :
  exists pre suf v,
    [row4; padded4] = pre ++ suf /\ suf <> [] /\ [padded4] = pre ++ [v].
Proof.
  apply (@simplify_prefix CNode CNodeOps c_create merge_dims_spec
           (mkST [row4; padded4]) (mkST [padded4]) eq_refl).
  discriminate.
Defined.

(** * One flat index or one index per dimension *)

Definition c_expr_node := ST_expr_node (Node:=CNode) merge_dims_spec.

(** [ShapeTracker.expr_node], given the row-major position of an index,
    yields the validity and (for a valid index) the offset that
    [ShapeTracker.expr_idxs] yields for the index itself. *)
Theorem expr_node_flat_agrees (rho : string -> Z) (lower : list ZView)
    (top : ZView) :
  length (zstrides top) = length (zshape top) ->
  env_range rho (zshape top) ->
  exists flat i1 v1 i2 v2,
    idxs_to_idx (map SInt (zshape top)) (zidxs (zshape top)) = Ok flat /\
    c_expr_node (mkST (map view_of (lower ++ [top]))) (inl flat) = Ok (i1, v1) /\
    c_expr_idxs (mkST (map view_of (lower ++ [top]))) None = Ok (i2, v2) /\
    truth rho v1 = truth rho v2 /\
    (truth rho v2 = true -> ceval rho i1 = ceval rho i2).
Proof.
  intros LS R.
  destruct (top_exprs top) as (e & f & Ee & Ef & _ & Wf).
  pose proof (@top_exprs_sem rho top e f Ee Ef LS R) as S.
  cbn zeta in S. destruct S as (Se & Sf & St & Oe & Ov).
  set (valid := expr_node_mask (view_of top) f None) in *.
  set (e1 := expr_node merge_dims_spec (view_of top) (Some f)).
  assert (S1 : ceval rho e1 = ceval rho e).
  { unfold e1. rewrite ceval_expr_node, Sf, Se.
    now apply view_addr_flat_index. }
  assert (Of : env_ok rho f).
  { apply (@vars_within_env_ok rho f (zidxs (zshape top)) Wf).
    unfold zidxs. rewrite idx_variables_vars.
    now apply idx_variables_env_ok. }
  assert (O1 : env_ok rho e1).
  { intros x lo hi I. apply (vars_expr_node top f) in I. now apply (Of x lo hi). }
  assert (Hv : exists l, valid = CAnd l).
  { unfold valid, expr_node_mask. change (node_ands ?x) with (CAnd x). eauto. }
  pose proof (@sem_expr_idx_loop rho (rev lower) e1 valid Hv O1 Ov) as L1.
  pose proof (@sem_expr_idx_loop rho (rev lower) e valid Hv Oe Ov) as L2.
  cbn zeta in L1, L2. rewrite S1 in L1.
  destruct L1 as [T1 A1]. destruct L2 as [T2 A2].
  exists f,
    (fst (expr_idx_loop merge_dims_spec (map view_of (rev lower)) e1 valid)),
    (snd (expr_idx_loop merge_dims_spec (map view_of (rev lower)) e1 valid)),
    (fst (expr_idx_loop merge_dims_spec (map view_of (rev lower)) e valid)),
    (snd (expr_idx_loop merge_dims_spec (map view_of (rev lower)) e valid)).
  split; [exact Ef|]. split.
  { unfold c_expr_node, ST_expr_node, ST__expr_idx. cbn [views].
    rewrite map_app. cbn [map]. rewrite get_last_app. cbn [bind].
    rewrite removelast_last, <- map_rev, <- surjective_pairing. reflexivity. }
  split.
  { unfold c_expr_idxs, ST_expr_idxs, ST__expr_idx. cbn [views].
    rewrite map_app. cbn [map]. rewrite get_last_app. cbn [bind].
    rewrite removelast_last.
    change (idx_variables 0 (shape (view_of top))) with (zidxs (zshape top)).
    rewrite Ee. cbn [bind].
    change (shape (view_of top)) with (map (@SInt CNode) (zshape top)).
    rewrite Ef. cbn [bind].
    rewrite <- map_rev, <- surjective_pairing. reflexivity. }
  split.
  - rewrite T1, T2. reflexivity.
  - intros V. rewrite T2 in V. rewrite (A1 V), (A2 V). reflexivity.
Qed.

Lemma expr_node_flat_agrees_witness :
  exists flat i1 v1 i2 v2,
    idxs_to_idx (map SInt (zshape zpadded4)) (zidxs (zshape zpadded4)) = Ok flat /\
    c_expr_node (mkST (map view_of ([zrow4] ++ [zpadded4]))) (inl flat)
    = Ok (i1, v1) /\
    c_expr_idxs (mkST (map view_of ([zrow4] ++ [zpadded4]))) None = Ok (i2, v2) /\
    truth (fun _ => 2) v1 = truth (fun _ => 2) v2 /\
    (truth (fun _ => 2) v2 = true ->
     ceval (fun _ => 2) i1 = ceval (fun _ => 2) i2).
Proof.
  apply (@expr_node_flat_agrees (fun _ => 2) [zrow4] zpadded4).
  - reflexivity.
  - constructor; [simpl; lia|constructor].
Defined.

(** * [real_size] bounds every offset *)






(** * The remaining operations of the tracker *)

Section TrackerOps.

Context {Node : Type} `{NodeOps Node}.

#[local] Abbreviation sint := (sint Node).

Variable View_create :
  list sint -> option (list sint) -> sint -> option (list (sint * sint)) -> View Node.
Variable _merge_dims : list sint -> list sint -> list (sint * sint * sint).

(** [Variable.expr], the name of a variable ([tinygrad/shape/symbolic.py]). *)
Variable node_expr : Node -> string.

(** The movement operations of [View] and [View.reshape]
    ([tinygrad/shape/view.py]); a failed assertion is a [Raise], "no view" is
    [None]. *)
Variable View_pad : View Node -> list (sint * sint) -> result (View Node).
Variable View_shrink : View Node -> list (sint * sint) -> result (View Node).
Variable View_expand : View Node -> list sint -> result (View Node).
Variable View_stride : View Node -> list Z -> result (View Node).
Variable View_reshape : View Node -> list sint -> result (option (View Node)).

(** [getenv("MERGE_VIEW", 1)]. *)
Variable MERGE_VIEW : Z.



(** [st == 1] for an entry of [real_strides]: [None] and nodes are not 1. *)
Definition is_one (s : option sint) : bool :=
  match s with
  | Some x => sint_eqb x (SInt 1)
  | None => false
  end.

(** [[i for i,st in enumerate(l) if st == 1]], counting from [i]. *)
Fixpoint unit_axes (i : nat) (l : list (option sint)) : list nat :=
  match l with
  | [] => []
  | s :: rest => if is_one s then i :: unit_axes (S i) rest
                 else unit_axes (S i) rest
  end.

Definition ST_unit_stride_axes (st : ShapeTracker Node) (ignore_valid : bool)
  : result (list nat) :=
  strides <- ST_real_strides _merge_dims st ignore_valid ;;
  Ok (unit_axes 0 strides).

(** [f'idx{axis}' in [v.expr for v in valid.vars()]]. *)
Definition ST_axis_is_masked (st : ShapeTracker Node) (axis : nat) : result bool :=
  '(_, valid) <- ST_expr_idxs _merge_dims st None ;;
  Ok (existsb (String.eqb (idx_name axis)) (map node_expr (node_vars valid))).

(** [ShapeTracker(self.views[0:-1] + (op(self.views[-1]), ))]. *)
Definition replace_last (op : View Node -> result (View Node))
    (st : ShapeTracker Node) : result (ShapeTracker Node) :=
  v <- get_last (views st) ;;
  v' <- op v ;;
  Ok (mkST (removelast (views st) ++ [v'])).

Definition ST_pad (st : ShapeTracker Node) (arg : list (sint * sint)) :=
  replace_last (fun v => View_pad v arg) st.
Definition ST_shrink (st : ShapeTracker Node) (arg : list (sint * sint)) :=
  replace_last (fun v => View_shrink v arg) st.
Definition ST_expand (st : ShapeTracker Node) (new_shape : list sint) :=
  replace_last (fun v => View_expand v new_shape) st.
Definition ST_stride (st : ShapeTracker Node) (mul : list Z) :=
  replace_last (fun v => View_stride v mul) st.

(** [reshape]: the last view is replaced when [MERGE_VIEW] is set and
    [View.reshape] returns a view; otherwise a view of the new shape is put
    on top. *)
Definition ST_reshape (st : ShapeTracker Node) (new_shape : list sint)
  : result (ShapeTracker Node) :=
  let on_top := mkST (views st ++ [View_create new_shape None (SInt 0) None]) in
  if Z.eqb MERGE_VIEW 0 then Ok on_top
  else
    v <- get_last (views st) ;;
    new_view <- View_reshape v new_shape ;;
    match new_view with
    | Some nv => Ok (mkST (removelast (views st) ++ [nv]))
    | None => Ok on_top
    end.

End TrackerOps.

(** ** What [ignore_valid] changes in [real_strides] *)

Section StridesFacts.

Context {Node : Type} `{NodeOps Node}.

#[local] Abbreviation sint := (sint Node).

Variable _merge_dims : list sint -> list sint -> list (sint * sint * sint).
Variable node_expr : Node -> string.

#[local] Abbreviation real_strides := (ST_real_strides _merge_dims).
#[local] Abbreviation unit_stride_axes := (ST_unit_stride_axes _merge_dims).
#[local] Abbreviation axis_is_masked := (ST_axis_is_masked _merge_dims node_expr).

Lemma strides_fix_ignore_valid (bad iv vv : list Node) (t : Node)
    (r : option sint) (s : sint) :
  strides_fix false bad iv vv t r = Some s ->
  strides_fix true bad iv vv t r = Some s.
Proof.
  unfold strides_fix. destruct (in_nodes t bad); cbn [orb]; [discriminate|].
  destruct (in_nodes t vv); cbn [andb negb]; [discriminate|auto].
Qed.

Lemma real_strides_known_kept (st : ShapeTracker Node)
    (r : list (option sint)) :
  real_strides st false = Ok r ->
  exists r',
    real_strides st true = Ok r' /\ length r' = length r /\
    forall i s, nth_error r i = Some (Some s) -> nth_error r' i = Some (Some s).
Proof.
  unfold ST_real_strides.
  destruct (is_single_unmasked (views st)) as [v|].
  { intros E. exists r. auto. }
  destruct (ST_shape st) as [shp|e]; cbn [bind]; [|discriminate].
  destruct (ST_expr_idxs _merge_dims st (Some (idx_variables 0 shp)))
    as [[idx valid]|e]; cbn [bind]; [|discriminate].
  destruct (strides_loop _ _ _ _) as [ret bad].
  intros E. injection E as <-.
  eexists. split; [reflexivity|]. split.
  - now rewrite !length_map.
  - intros i s. rewrite !nth_error_map.
    destruct (nth_error (combine (idx_variables 0 shp) ret) i) as [[t r0]|];
      cbn [option_map fst snd]; [|discriminate].
    intros E. injection E as E. f_equal.
    now apply strides_fix_ignore_valid.
Qed.

(** A stride that [real_strides] knows while it takes validity into account
    is the stride it returns when told to ignore validity. *)
Theorem real_strides_ignore_valid (st : ShapeTracker Node)
    (r : list (option sint)) :
  real_strides st false = Ok r ->
  exists r',
    real_strides st true = Ok r' /\ length r' = length r /\
    forall i s, nth_error r i = Some (Some s) -> nth_error r' i = Some (Some s).
Proof. apply real_strides_known_kept. Qed.

(** ** [unit_stride_axes] *)

Lemma is_one_true (s : option sint) : is_one s = true <-> s = Some (SInt 1).
Proof.
  destruct s as [x|]; cbn [is_one].
  - rewrite sint_eqb_eq. split; congruence.
  - split; discriminate.
Qed.

Lemma unit_axes_In (l : list (option sint)) :
  forall k a,
    In a (unit_axes k l) <->
    (k <= a)%nat /\ nth_error l (a - k) = Some (Some (SInt 1)).
Proof.
  induction l as [|s l IH]; intros k a; cbn [unit_axes].
  - split; [contradiction|]. intros [_ E]. now destruct (a - k)%nat.
  - assert (Tail : In a (unit_axes (S k) l) <->
                   (k < a)%nat /\ nth_error l (a - S k) = Some (Some (SInt 1))).
    { rewrite IH. split; intros [L E]; (split; [lia|exact E]). }
    assert (Nth : (k <= a)%nat ->
              (nth_error (s :: l) (a - k) = Some (Some (SInt 1)) <->
               (a = k /\ is_one s = true) \/
               ((k < a)%nat /\ nth_error l (a - S k) = Some (Some (SInt 1))))).
    { intros L. destruct (Nat.eq_dec a k) as [->|N].
      - rewrite Nat.sub_diag. cbn [nth_error]. rewrite is_one_true.
        split; [intros E; left; split; congruence|].
        intros [[_ E]|[L' _]]; [congruence|lia].
      - replace (a - k)%nat with (S (a - S k)) by lia. cbn [nth_error].
        split; [intros E; right; split; [lia|exact E]|].
        intros [[E _]|[_ E]]; [contradiction|exact E]. }
    destruct (is_one s) eqn:O; cbn [In].
    + rewrite Tail. split.
      * intros [<-|[L E]].
        -- split; [lia|]. apply Nth; [lia|]. left. auto.
        -- split; [lia|]. apply Nth; [lia|]. right. auto.
      * intros [L E]. apply (Nth L) in E. destruct E as [[-> _]|E]; auto.
    + rewrite Tail. split.
      * intros [L E]. split; [lia|]. apply Nth; [lia|]. right. auto.
      * intros [L E]. apply (Nth L) in E.
        destruct E as [[_ E]|E]; [discriminate|exact E].
Qed.

Lemma unit_axes_sorted (l : list (option sint)) :
  forall k, StronglySorted lt (unit_axes k l).
Proof.
  induction l as [|s l IH]; intros k; cbn [unit_axes]; [constructor|].
  destruct (is_one s); [|apply IH].
  constructor; [apply IH|].
  apply Forall_forall. intros a I. apply unit_axes_In in I. lia.
Qed.

(** [unit_stride_axes] returns, in increasing order, exactly the positions
    at which [real_strides] has the integer 1. *)
Theorem unit_stride_axes_spec (st : ShapeTracker Node) (ignore_valid : bool)
    (axes : list nat) :
  unit_stride_axes st ignore_valid = Ok axes ->
  exists strides,
    real_strides st ignore_valid = Ok strides /\
    (forall a, In a axes <-> nth_error strides a = Some (Some (SInt 1))) /\
    StronglySorted lt axes.
Proof.
  unfold ST_unit_stride_axes.
  destruct (real_strides st ignore_valid) as [strides|e]; cbn [bind];
    [|discriminate].
  intros E. injection E as <-. exists strides.
  split; [reflexivity|]. split; [|apply unit_axes_sorted].
  intros a. rewrite unit_axes_In, Nat.sub_0_r. split; [tauto|].
  intros E. split; [lia|exact E].
Qed.

(** Every unit-stride axis found while validity is taken into account is
    found as well when it is ignored. *)
Theorem unit_stride_axes_ignore_valid (st : ShapeTracker Node) (axes : list nat) :
  unit_stride_axes st false = Ok axes ->
  exists axes', unit_stride_axes st true = Ok axes' /\ incl axes axes'.
Proof.
  unfold ST_unit_stride_axes.
  destruct (real_strides st false) as [r|e] eqn:R; cbn [bind]; [|discriminate].
  intros E. injection E as <-.
  destruct (real_strides_known_kept st R) as (r' & -> & _ & N). cbn [bind].
  eexists. split; [reflexivity|].
  intros a. rewrite !unit_axes_In, !Nat.sub_0_r. intros [L E]. auto.
Qed.

End StridesFacts.

(** A view of four elements under a mask that excludes nothing. *)
Definition fullmask4 : View CNode :=
  mkView [SInt 4] [SInt 1] (SInt 0) (Some [(SInt 0, SInt 4)]) false.

Definition c_unit_stride_axes := ST_unit_stride_axes (Node:=CNode) merge_dims_spec.

Lemma real_strides_ignore_valid_witness :
  exists r',
    c_real_strides (mkST [fullmask4]) true = Ok r' /\
    length r' = length [Some (SInt 1 : sint CNode)] /\
    forall i s, nth_error [Some (SInt 1)] i = Some (Some s) ->
                nth_error r' i = Some (Some s).
Proof.
  exact (@real_strides_ignore_valid CNode CNodeOps merge_dims_spec
           (mkST [fullmask4]) [Some (SInt 1)] eq_refl).
Defined.

Lemma unit_stride_axes_spec_witness :
  exists strides,
    c_real_strides (mkST [fullmask4]) false = Ok strides /\
    (forall a, In a [O] <-> nth_error strides a = Some (Some (SInt 1))) /\
    StronglySorted lt [O].
Proof.
  exact (@unit_stride_axes_spec CNode CNodeOps merge_dims_spec
           (mkST [fullmask4]) false [O] eq_refl).
Defined.

Lemma unit_stride_axes_ignore_valid_witness :
  exists axes',
    c_unit_stride_axes (mkST [fullmask4]) true = Ok axes' /\ incl [O] axes'.
Proof.
  exact (@unit_stride_axes_ignore_valid CNode CNodeOps merge_dims_spec
           (mkST [fullmask4]) [O] eq_refl).
Defined.

(** ** [axis_is_masked] and [real_strides] *)

Section AxisFacts.

Context {Node : Type} `{NodeOps Node}.

#[local] Abbreviation sint := (sint Node).

Variable _merge_dims : list sint -> list sint -> list (sint * sint * sint).
Variable node_expr : Node -> string.

(** The name of a variable is the name it was made with. *)
Hypothesis node_expr_Variable : forall x lo hi, node_expr (Variable_ x lo hi) = x.

#[local] Abbreviation real_strides := (ST_real_strides _merge_dims).
#[local] Abbreviation axis_is_masked := (ST_axis_is_masked _merge_dims node_expr).

Lemma idx_variables_nth (shp : list sint) :
  forall k i t,
    nth_error (idx_variables k shp) i = Some t ->
    exists s, t = Variable_ (idx_name (k + i)) 0 (sint_pred s).
Proof.
  induction shp as [|d shp IH]; intros k i t E; cbn [idx_variables] in E.
  - destruct i; discriminate.
  - destruct i as [|i]; cbn [nth_error] in E.
    + injection E as <-. exists d. now rewrite Nat.add_0_r.
    + destruct (IH (S k) i t E) as [s ->]. exists s.
      now rewrite Nat.add_succ_r.
Qed.

Lemma in_nodes_true (x : Node) (l : list Node) : in_nodes x l = true -> In x l.
Proof. unfold in_nodes. destruct (in_dec node_eq_dec x l); [auto|discriminate]. Qed.

(** For an axis that [axis_is_masked] reports as not masked, [real_strides]
    returns the same stride whether or not it is told to ignore validity. *)
Theorem unmasked_axis_stride (st : ShapeTracker Node) (axis : nat)
    (r r' : list (option sint)) :
  axis_is_masked st axis = Ok false ->
  real_strides st false = Ok r ->
  real_strides st true = Ok r' ->
  nth_error r axis = nth_error r' axis.
Proof.
  unfold ST_axis_is_masked, ST_real_strides.
  destruct (is_single_unmasked (views st)) as [v|].
  { intros _ E E'. congruence. }
  unfold ST_shape, ST_expr_idxs.
  destruct (get_last (views st)) as [v|e]; cbn [bind]; [|discriminate].
  destruct (expr_idxs v (idx_variables 0 (shape v))) as [idx|e]; cbn [bind];
    [|discriminate].
  destruct (idxs_to_idx (shape v) (idx_variables 0 (shape v))) as [flat|e];
    cbn [bind]; [|discriminate].
  destruct (ST__expr_idx _merge_dims st idx (expr_node_mask v flat None))
    as [i valid].
  destruct (strides_loop _ _ _ _) as [ret bad].
  intros M E E'. injection E as <-. injection E' as <-.
  rewrite !nth_error_map.
  destruct (nth_error (combine (idx_variables 0 (shape v)) ret) axis)
    as [[t r0]|] eqn:N; cbn [option_map fst snd]; [|reflexivity].
  f_equal. unfold strides_fix.
  destruct (in_nodes t (node_vars valid)) eqn:V; [|reflexivity].
  exfalso. apply in_nodes_true in V.
  assert (Nt : nth_error (idx_variables 0 (shape v)) axis = Some t).
  { clear - N. revert N. generalize (idx_variables 0 (shape v)).
    intros l. revert ret axis. induction l as [|x l IH]; intros [|y ret] [|a];
      cbn [combine nth_error]; try discriminate.
    - intros E. now injection E as -> _.
    - apply IH. }
  destruct (idx_variables_nth _ _ _ Nt) as [s ->]. cbn [Nat.add] in V.
  assert (T : existsb (String.eqb (idx_name axis))
                (map node_expr (node_vars valid)) = true).
  { apply existsb_exists. exists (idx_name axis). split.
    - apply in_map_iff. eexists. split; [|exact V]. apply node_expr_Variable.
    - apply String.eqb_refl. }
  rewrite T in M. discriminate.
Qed.

End AxisFacts.

(** [Variable.expr] over the modelled algebra. *)
Definition cnode_expr (n : CNode) : string :=
  match n with
  | CVar x _ _ => x
  | _ => EmptyString
  end.

Definition c_axis_is_masked :=
  ST_axis_is_masked (Node:=CNode) merge_dims_spec cnode_expr.

Lemma unmasked_axis_stride_witness :
  c_axis_is_masked (mkST [fullmask4]) 0 = Ok false /\
  nth_error [Some (SInt 1 : sint CNode)] 0 = nth_error [Some (SInt 1)] 0.
Proof.
  split; [reflexivity|].
  exact (@unmasked_axis_stride CNode CNodeOps merge_dims_spec cnode_expr
           (fun _ _ _ => eq_refl) (mkST [fullmask4]) 0
           [Some (SInt 1)] [Some (SInt 1)] eq_refl eq_refl eq_refl).
Defined.

(** * Movement operations and [reshape] *)

Section MovementFacts.

Context {Node : Type} `{NodeOps Node}.

#[local] Abbreviation sint := (sint Node).

Variable View_create :
  list sint -> option (list sint) -> sint -> option (list (sint * sint)) -> View Node.
Variable View_pad : View Node -> list (sint * sint) -> result (View Node).
Variable View_shrink : View Node -> list (sint * sint) -> result (View Node).
Variable View_expand : View Node -> list sint -> result (View Node).
Variable View_permute : View Node -> list nat -> result (View Node).
Variable View_stride : View Node -> list Z -> result (View Node).
Variable View_reshape : View Node -> list sint -> result (option (View Node)).
Variable MERGE_VIEW : Z.

Lemma replace_last_inv (op : View Node -> result (View Node))
    (st st' : ShapeTracker Node) :
  replace_last op st = Ok st' ->
  exists lower v v',
    views st = lower ++ [v] /\ op v = Ok v' /\ views st' = lower ++ [v'].
Proof.
  unfold replace_last.
  destruct (get_last (views st)) as [v|e] eqn:L; cbn [bind]; [|discriminate].
  destruct (op v) as [v'|e] eqn:O; cbn [bind]; [|discriminate].
  intros E. injection E as <-. cbn [views].
  apply get_last_Ok in L. destruct L as [lower L].
  exists lower, v, v'. rewrite L, removelast_last. auto.
Qed.

Lemma replace_last_empty (op : View Node -> result (View Node))
    (st : ShapeTracker Node) :
  views st = [] -> replace_last op st = Raise IndexError.
Proof. intros E. unfold replace_last. rewrite E. reflexivity. Qed.

Lemma ST_permute_replace_last (st : ShapeTracker Node) (axis : list nat) :
  ST_permute View_permute st axis = replace_last (fun v => View_permute v axis) st.
Proof. reflexivity. Qed.

(** [pad], [shrink], [expand], [permute] and [stride] replace the last view
    and nothing else: the tracker they return has the views of the given one
    below its last view, and as many views. *)
Theorem movement_ops_keep_lower (st st' : ShapeTracker Node) :
  (exists arg, ST_pad View_pad st arg = Ok st') \/
  (exists arg, ST_shrink View_shrink st arg = Ok st') \/
  (exists new_shape, ST_expand View_expand st new_shape = Ok st') \/
  (exists axis, ST_permute View_permute st axis = Ok st') \/
  (exists mul, ST_stride View_stride st mul = Ok st') ->
  exists lower v v',
    views st = lower ++ [v] /\ views st' = lower ++ [v'] /\
    length (views st') = length (views st).
Proof.
  assert (K : forall op, replace_last op st = Ok st' ->
            exists lower v v',
              views st = lower ++ [v] /\ views st' = lower ++ [v'] /\
              length (views st') = length (views st)).
  { intros op E. destruct (replace_last_inv op st E) as (lower & v & v' & A & _ & B).
    exists lower, v, v'. rewrite A, B, !length_app. auto. }
  intros [[a E]|[[a E]|[[a E]|[[a E]|[a E]]]]]; eapply K; exact E.
Qed.

(** On a tracker without views they raise [IndexError], whatever the
    argument. *)
Theorem movement_ops_empty (st : ShapeTracker Node) :
  views st = [] ->
  (forall arg, ST_pad View_pad st arg = Raise IndexError) /\
  (forall arg, ST_shrink View_shrink st arg = Raise IndexError) /\
  (forall new_shape, ST_expand View_expand st new_shape = Raise IndexError) /\
  (forall axis, ST_permute View_permute st axis = Raise IndexError) /\
  (forall mul, ST_stride View_stride st mul = Raise IndexError).
Proof.
  intros E.
  split; [|split; [|split; [|split]]]; intros a;
    apply replace_last_empty; exact E.
Qed.

Hypothesis View_create_shape : forall shp st off m,
  shape (View_create shp st off m) = shp.
Hypothesis View_reshape_shape : forall v new_shape nv,
  View_reshape v new_shape = Ok (Some nv) -> shape nv = new_shape.

#[local] Abbreviation reshape := (ST_reshape View_create View_reshape MERGE_VIEW).

(** [reshape] returns a tracker of the new shape.  It either replaces the
    last view or puts one view on top, and leaves the views below alone; with
    [MERGE_VIEW] set to 0 it always puts a view on top. *)
Theorem reshape_shape_views (st st' : ShapeTracker Node) (new_shape : list sint) :
  reshape st new_shape = Ok st' ->
  ST_shape st' = Ok new_shape /\
  (exists v', views st' = views st ++ [v'] \/
              exists lower v, views st = lower ++ [v] /\ views st' = lower ++ [v']) /\
  (MERGE_VIEW = 0 ->
   views st' = views st ++ [View_create new_shape None (SInt 0) None]).
Proof.
  unfold ST_reshape.
  assert (Top : forall s,
            s = mkST (views st ++ [View_create new_shape None (SInt 0) None]) ->
            ST_shape s = Ok new_shape /\
            (exists v', views s = views st ++ [v'] \/
               exists lower v, views st = lower ++ [v] /\ views s = lower ++ [v'])).
  { intros s ->. unfold ST_shape. cbn [views]. rewrite get_last_app. cbn [bind].
    rewrite View_create_shape. split; [reflexivity|]. eauto. }
  destruct (Z.eqb MERGE_VIEW 0) eqn:M.
  { intros E. injection E as <-. destruct (Top _ eq_refl) as [A B].
    split; [exact A|]. split; [exact B|]. reflexivity. }
  apply Z.eqb_neq in M.
  destruct (get_last (views st)) as [v|e] eqn:L; cbn [bind]; [|discriminate].
  destruct (View_reshape v new_shape) as [[nv|]|e] eqn:R; cbn [bind];
    [| |discriminate].
  - intros E. injection E as <-. cbn [views].
    apply get_last_Ok in L. destruct L as [lower L].
    rewrite L, removelast_last. split.
    + unfold ST_shape. cbn [views]. rewrite get_last_app. cbn [bind].
      now rewrite (View_reshape_shape R).
    + split; [|contradiction]. exists nv. right. eauto.
  - intros E. injection E as <-. destruct (Top _ eq_refl) as [A B].
    split; [exact A|]. split; [exact B|]. contradiction.
Qed.

End MovementFacts.

Definition grid32T : View CNode :=
  mkView [SInt 3; SInt 2] [SInt 1; SInt 3] (SInt 0) None false.

Lemma movement_ops_keep_lower_witness :
  exists lower v v',
    views (mkST [row4; grid23]) = lower ++ [v] /\
    views (mkST [row4; grid32T]) = lower ++ [v'] /\
    length (views (mkST [row4; grid32T])) = length (views (mkST [row4; grid23])).
Proof.
  apply (@movement_ops_keep_lower CNode
           (fun v _ => Ok v) (fun v _ => Ok v) (fun v _ => Ok v)
           c_permute (fun v _ => Ok v)
           (mkST [row4; grid23]) (mkST [row4; grid32T])).
  right. right. right. left. exists [1%nat; 0%nat]. reflexivity.
Defined.

Lemma movement_ops_empty_witness :
  (forall arg, ST_pad (fun v _ => Ok v) (mkST (Node:=CNode) []) arg
               = Raise IndexError) /\
  (forall arg, ST_shrink (fun v _ => Ok v) (mkST (Node:=CNode) []) arg
               = Raise IndexError) /\
  (forall new_shape, ST_expand (fun v _ => Ok v) (mkST (Node:=CNode) []) new_shape
                     = Raise IndexError) /\
  (forall axis, ST_permute c_permute (mkST []) axis = Raise IndexError) /\
  (forall mul, ST_stride (fun v _ => Ok v) (mkST (Node:=CNode) []) mul
               = Raise IndexError).
Proof.
  exact (@movement_ops_empty CNode
           (fun v _ => Ok v) (fun v _ => Ok v) (fun v _ => Ok v)
           c_permute (fun v _ => Ok v) (mkST []) eq_refl).
Defined.

Lemma reshape_shape_views_witness :
  ST_shape (mkST [row4; c_create [SInt 2; SInt 2] None (SInt 0) None])
  = Ok [SInt 2; SInt 2] /\
  (exists v',
      views (mkST [row4; c_create [SInt 2; SInt 2] None (SInt 0) None])
      = views (mkST [row4]) ++ [v'] \/
      exists lower v,
        views (mkST [row4]) = lower ++ [v] /\
        views (mkST [row4; c_create [SInt 2; SInt 2] None (SInt 0) None])
        = lower ++ [v']) /\
  (1 = 0 ->
   views (mkST [row4; c_create [SInt 2; SInt 2] None (SInt 0) None])
   = views (mkST [row4]) ++ [c_create [SInt 2; SInt 2] None (SInt 0) None]).
Proof.
  apply (@reshape_shape_views CNode c_create (fun _ _ => Ok None) 1).
  - reflexivity.
  - discriminate.
  - reflexivity.
Defined.

(** * What a mask and a broadcast dimension contribute *)

Section ExprFacts.

Context {Node : Type} `{NodeOps Node}.

#[local] Abbreviation sint := (sint Node).

Lemma mask_loop_full (idx : Node) (dxy : list (sint * (sint * sint))) :
  Forall (fun p => snd p = (SInt 0, fst p)) dxy ->
  forall acc expr, mask_loop idx dxy acc expr = expr.
Proof.
  intros F. induction F as [|[d [x y]] rest E F IH]; intros acc expr;
    cbn [mask_loop]; [reflexivity|].
  cbn [fst snd] in E. injection E as -> ->.
  replace (sint_eqb (SInt 0) (SInt 0) && sint_eqb d d) with true.
  - apply IH.
  - symmetry. apply andb_true_intro. split; now apply sint_eqb_eq.
Qed.

Lemma Forall2_combine_rev {A B : Type} (P : A -> B -> Prop) (l1 : list A)
    (l2 : list B) :
  Forall2 P l1 l2 -> Forall (fun p => P (fst p) (snd p)) (combine (rev l1) (rev l2)).
Proof.
  intros F. rewrite <- combine_rev by exact (Forall2_length F).
  apply Forall_rev. induction F; cbn [combine]; constructor; auto.
Qed.

(** A mask whose every entry is the full range [(0, d)] of its dimension
    adds no comparison: the validity expression is the one of the view
    without a mask. *)
Theorem full_mask_no_terms (v : View Node) (idx : Node) (valid : option Node)
    (m : list (sint * sint)) :
  mask v = Some m ->
  Forall2 (fun d xy => xy = (SInt 0, d)) (shape v) m ->
  expr_node_mask v idx valid
  = node_ands (match valid with Some w => [w] | None => [] end).
Proof.
  intros M F. unfold expr_node_mask. rewrite M.
  rewrite mask_loop_full; [reflexivity|].
  exact (Forall2_combine_rev F).
Qed.

Lemma idx_terms_ext (shp sts : list sint) :
  forall idxs idxs' : list Node,
    length idxs = length shp -> length idxs' = length shp ->
    (forall i sh st, nth_error shp i = Some sh -> nth_error sts i = Some st ->
                     sh <> SInt 1 -> st <> SInt 0 ->
                     nth_error idxs i = nth_error idxs' i) ->
    let term := fun t : Node * sint * sint =>
                  match t with (idx, _, st) => node_mul idx st end in
    let keep := fun t : Node * sint * sint =>
                  match t with (_, sh, st) =>
                    negb (sint_eqb sh (SInt 1)) && negb (sint_eqb st (SInt 0)) end in
    map term (filter keep (zip3 idxs shp sts))
    = map term (filter keep (zip3 idxs' shp sts)).
Proof.
  revert sts. induction shp as [|sh shp IH]; intros sts [|x idxs] [|x' idxs'] L L' E;
    cbn [length] in *; try discriminate; [reflexivity|].
  destruct sts as [|st sts]; [reflexivity|].
  cbn zeta. cbn [zip3 filter].
  assert (T : forall i sh0 st0, nth_error shp i = Some sh0 ->
                nth_error sts i = Some st0 -> sh0 <> SInt 1 -> st0 <> SInt 0 ->
                nth_error idxs i = nth_error idxs' i).
  { intros i sh0 st0 A B C D. exact (E (S i) sh0 st0 A B C D). }
  pose proof (IH sts idxs idxs' ltac:(lia) ltac:(lia) T) as R. cbn zeta in R.
  destruct (negb (sint_eqb sh (SInt 1)) && negb (sint_eqb st (SInt 0))) eqn:K.
  - cbn [map]. rewrite R. f_equal.
    apply andb_prop in K. destruct K as [K1 K2].
    apply negb_true_iff in K1, K2. apply sint_eqb_neq in K1, K2.
    pose proof (E O sh st eq_refl eq_refl K1 K2) as X. cbn [nth_error] in X.
    now injection X as ->.
  - exact R.
Qed.

(** [expr_idxs] reads the index of a dimension only when its size is not 1
    and its stride is not 0: two index tuples that agree on every other
    dimension give the same offset expression. *)
Theorem expr_idxs_skips_broadcast (v : View Node) (idxs idxs' : list Node) :
  length idxs = length (shape v) -> length idxs' = length (shape v) ->
  (forall i sh st,
      nth_error (shape v) i = Some sh -> nth_error (strides v) i = Some st ->
      sh <> SInt 1 -> st <> SInt 0 ->
      nth_error idxs i = nth_error idxs' i) ->
  expr_idxs v idxs = expr_idxs v idxs'.
Proof.
  intros L L' E. unfold expr_idxs, idx_terms. rewrite L, L'.
  destruct (Nat.eqb _ _); [|reflexivity].
  do 3 f_equal. now apply idx_terms_ext.
Qed.

End ExprFacts.

Lemma full_mask_no_terms_witness :
  expr_node_mask fullmask4 (CVar "idx" 0 3) None = node_ands [].
Proof.
  apply (@full_mask_no_terms CNode CNodeOps fullmask4 (CVar "idx" 0 3) None
           [(SInt 0, SInt 4)] eq_refl).
  constructor; [reflexivity|constructor].
Defined.

Lemma expr_idxs_skips_broadcast_witness :
  expr_idxs broadcast2 [CVar "a" 0 1] = expr_idxs broadcast2 [CVar "b" 0 1].
Proof.
  apply (@expr_idxs_skips_broadcast CNode CNodeOps broadcast2
           [CVar "a" 0 1] [CVar "b" 0 1] eq_refl eq_refl).
  intros [|i] sh st A B C D.
  - cbn in B. injection B as <-. contradiction.
  - destruct i; discriminate.
Defined.

(** * A fresh tracker *)











(** * Row-major positions *)

Lemma flatLE_inj (ds ys ys' : list Z) :
  Forall2 (fun d y => 0 <= y < d) ds ys ->
  Forall2 (fun d y => 0 <= y < d) ds ys' ->
  flatLE ys ds = flatLE ys' ds -> ys = ys'.
Proof.
  intros F. revert ys'. induction F as [|d y ds ys R F IH]; intros ys' F' E.
  - now inversion F'.
  - inversion F' as [|d' y' ds' ys'' R' F'' ]; subst. cbn [flatLE] in E.
    assert (Y : y = y').
    { assert (M : (y + d * flatLE ys ds) mod d = (y' + d * flatLE ys'' ds) mod d)
        by (now rewrite E).
      rewrite !(Z.mul_comm d), !Z.mod_add, !Z.mod_small in M by lia. exact M. }
    subst y'. f_equal. apply IH; [exact F''|]. nia.
Qed.

(** [idxs_to_idx] numbers the indices of a shape in row-major order: the
    position of an index within the shape lies between 0 and the number of
    elements, and two indices at the same position are the same index. *)
Theorem idxs_to_idx_positions (shp : list Z) (rho rho' : string -> Z) :
  env_range rho shp -> env_range rho' shp ->
  exists flat,
    idxs_to_idx (map SInt shp) (zidxs shp) = Ok flat /\
    0 <= ceval rho flat < product shp /\
    (ceval rho flat = ceval rho' flat ->
     idx_values rho 0 (length shp) = idx_values rho' 0 (length shp)).
Proof.
  intros R R'.
  assert (Li : length (zidxs shp) = length shp).
  { unfold zidxs. now rewrite idx_variables_length, length_map. }
  destruct (ceval_idxs_to_idx rho shp (zidxs shp) Li) as (f & Ef & Vf).
  destruct (ceval_idxs_to_idx rho' shp (zidxs shp) Li) as (f' & Ef' & Vf').
  assert (f' = f) by congruence. subst f'.
  unfold zidxs in Vf, Vf'. rewrite ceval_idx_variables in Vf, Vf'.
  exists f. split; [exact Ef|]. split.
  - rewrite Vf. now apply flat_index_range.
  - intros E. rewrite Vf, Vf' in E.
    rewrite !flat_index_flatLE in E by (now apply in_range_length).
    apply (flatLE_inj (in_range_rev R) (in_range_rev R')) in E.
    rewrite <- (rev_involutive (idx_values rho 0 (length shp))), E.
    apply rev_involutive.
Qed.

Lemma idxs_to_idx_positions_witness :
  exists flat,
    idxs_to_idx (map SInt [2; 3]) (zidxs [2; 3]) = Ok flat /\
    0 <= ceval (fun _ => 1) flat < product [2; 3] /\
    (ceval (fun _ => 1) flat = ceval (fun _ => 0) flat ->
     idx_values (fun _ => 1) 0 (length [2; 3])
     = idx_values (fun _ => 0) 0 (length [2; 3])).
Proof.
  apply (@idxs_to_idx_positions [2; 3] (fun _ => 1) (fun _ => 0)).
  - repeat constructor; simpl; lia.
  - repeat constructor; simpl; lia.
Defined.

(** * [simplify] and [__add__] never fail; identities of [__add__] *)

Section AddFacts.

Context {Node : Type} `{NodeOps Node}.

#[local] Abbreviation sint := (sint Node).

Variable View_create :
  list sint -> option (list sint) -> sint -> option (list (sint * sint)) -> View Node.
Variable _merge_dims : list sint -> list sint -> list (sint * sint * sint).

#[local] Abbreviation simplify := (ST_simplify View_create _merge_dims).
#[local] Abbreviation loop := (simplify_loop View_create _merge_dims).
#[local] Abbreviation add := (ST_add View_create _merge_dims).
#[local] Abbreviation merge := (merge_views View_create _merge_dims).

Lemma simplify_loop_total (below : list (View Node)) :
  forall last, exists vs, loop below last = Ok vs.
Proof.
  induction below as [|vm2 rest IH]; intros last; cbn [simplify_loop]; [eauto|].
  destruct (merge_views_total View_create _merge_dims vm2 last) as [[v|] ->];
    cbn [bind]; eauto.
Qed.

Lemma simplify_total (st : ShapeTracker Node) : exists st', simplify st = Ok st'.
Proof.
  unfold ST_simplify. destruct (rev (views st)) as [|last below]; [eauto|].
  destruct (simplify_loop_total below last) as [vs ->]. cbn [bind]. eauto.
Qed.

Lemma add_loop_total (vs : list (View Node)) :
  forall ret, exists r, add_loop View_create _merge_dims ret vs = Ok r.
Proof.
  induction vs as [|v vs IH]; intros ret; cbn [add_loop]; [eauto|].
  destruct (simplify_total (mkST (views ret ++ [v]))) as [r ->]. cbn [bind].
  apply IH.
Qed.

(** [merge_views], [simplify] and [__add__] return for all arguments: they
    raise neither [IndexError] nor [AssertionError], on an empty tracker
    too. *)
Theorem merge_simplify_add_return :
  (forall vm2 vm1 : View Node,
      exists r, merge_views View_create _merge_dims vm2 vm1 = Ok r) /\
  (forall st : ShapeTracker Node,
      exists st', ST_simplify View_create _merge_dims st = Ok st') /\
  (forall t u : ShapeTracker Node,
      exists r, ST_add View_create _merge_dims t u = Ok r).
Proof.
  split; [apply merge_views_total|]. split; [apply simplify_total|].
  intros t u. apply add_loop_total.
Qed.

Lemma bind_Ok {A : Type} (r : result A) : (x <- r ;; Ok x) = r.
Proof. now destruct r. Qed.

(** Adding a contiguous view of the tracker's own shape is [simplify]. *)
Theorem add_identity_view (t : ShapeTracker Node) (l v : View Node) :
  get_last (views t) = Ok l ->
  contiguous v = true -> shape v = shape l ->
  add t (mkST [v]) = simplify t.
Proof.
  intros L C S. apply get_last_Ok in L. destruct L as [lower L].
  unfold ST_add. cbn [views add_loop]. rewrite bind_Ok.
  unfold ST_simplify. cbn [views]. rewrite L, !rev_app_distr.
  cbn [rev app simplify_loop].
  assert (M : merge l v = Ok (Some l)).
  { unfold merge_views. rewrite C. apply list_eqb_eq in S. rewrite S. reflexivity. }
  rewrite M. reflexivity.
Qed.

(** Adding one view to a single contiguous view gives a single view: the
    added one, or the contiguous one if the added one is contiguous too and
    of the same shape. *)
Theorem add_onto_contiguous (c v : View Node) :
  contiguous c = true ->
  add (mkST [c]) (mkST [v])
  = Ok (mkST [if contiguous v && list_eqb sint_eqb (shape v) (shape c)
              then c else v]).
Proof.
  intros C. unfold ST_add. cbn [views add_loop app]. rewrite bind_Ok.
  unfold ST_simplify. cbn [views rev app simplify_loop].
  unfold merge_views.
  destruct (contiguous v && list_eqb sint_eqb (shape v) (shape c)).
  - reflexivity.
  - rewrite C. reflexivity.
Qed.

(** [real_size] at the edges: a tracker without views raises [IndexError];
    a shape with a dimension 0 gives 0, whatever the views and the number of
    rounds allowed to the loop. *)
Theorem real_size_edges (st : ShapeTracker Node) (fuel : nat) :
  (views st = [] -> ST_real_size _merge_dims fuel st = Raise IndexError) /\
  (forall v, get_last (views st) = Ok v -> In (SInt 0) (shape v) ->
             ST_real_size _merge_dims fuel st = Ok (Some 0)).
Proof.
  unfold ST_real_size, ST_shape. split.
  - intros ->. reflexivity.
  - intros v L I. rewrite L. cbn [bind].
    replace (existsb (sint_eqb (SInt 0)) (shape v)) with true; [reflexivity|].
    symmetry. apply existsb_exists. exists (SInt 0). split; [exact I|].
    now apply sint_eqb_eq.
Qed.

End AddFacts.

Lemma add_identity_view_witness :
  c_add (mkST [row4; padded4]) (mkST [c_create [SInt 6] None (SInt 0) None])
  = c_simplify (mkST [row4; padded4]).
Proof.
  exact (@add_identity_view CNode CNodeOps c_create merge_dims_spec
           (mkST [row4; padded4]) padded4 (c_create [SInt 6] None (SInt 0) None)
           eq_refl eq_refl eq_refl).
Defined.

Lemma add_onto_contiguous_witness :
  c_add (mkST [row4]) (mkST [row8])
  = Ok (mkST [if contiguous row8 && list_eqb sint_eqb (shape row8) (shape row4)
              then row4 else row8]).
Proof.
  exact (@add_onto_contiguous CNode CNodeOps c_create merge_dims_spec
           row4 row8 eq_refl).
Defined.

(** * [invert] *)

Section Invert.

Context {Node : Type} `{NodeOps Node}.

#[local] Abbreviation sint := (sint Node).

Variable View_create :
  list sint -> option (list sint) -> sint -> option (list (sint * sint)) -> View Node.
Variable View_reshape : View Node -> list sint -> result (option (View Node)).
Variable MERGE_VIEW : Z.

(** [View.invert(out_shape)] of [tinygrad/shape/view.py]; "no view" is
    [None]. *)
Variable View_invert : View Node -> list sint -> result (option (View Node)).

(** [tuple(v.invert(s) for v,s in pairs)]: the calls are made in order, the
    first one that raises ends the construction. *)
Fixpoint invert_views (pairs : list (View Node * list sint))
  : result (list (option (View Node))) :=
  match pairs with
  | [] => Ok []
  | (v, s) :: rest =>
      r <- View_invert v s ;;
      rs <- invert_views rest ;;
      Ok (r :: rs)
  end.

(** [zip(self.views[::-1], [x.shape for x in self.views[::-1][1:]]+[out_shape])]. *)
Definition invert_pairs (st : ShapeTracker Node) (out_shape : list sint)
  : list (View Node * list sint) :=
  let rv := rev (views st) in
  combine rv (map (@shape Node) (tl rv) ++ [out_shape]).

Definition ST_invert (st : ShapeTracker Node) (out_shape : list sint)
  : result (option (ShapeTracker Node)) :=
  ret <- invert_views (invert_pairs st out_shape) ;;
  if forallb (fun x => negb (is_None x)) ret
  then
    r <- ST_reshape View_create View_reshape MERGE_VIEW (mkST (somes ret)) out_shape ;;
    Ok (Some r)
  else Ok None.

(** Each view is inverted against the shape of the view below it, and
    [views[0]] against [out_shape]. *)
Lemma invert_pairs_below (vs : list (View Node)) :
  forall out_shape,
    invert_pairs (mkST vs) out_shape
    = rev (combine vs (out_shape :: map (@shape Node) vs)).
Proof.
  unfold invert_pairs. cbn [views].
  induction vs as [|v vs IH]; intros out; [reflexivity|].
  cbn [map combine rev]. rewrite <- IH.
  destruct (rev vs) as [|a r] eqn:R.
  - reflexivity.
  - cbn [app tl]. rewrite map_app. cbn [map].
    change (a :: r ++ [v]) with ((a :: r) ++ [v]).
    rewrite combine_snoc; [reflexivity|].
    cbn [length]. rewrite length_app, length_map. cbn [length]. lia.
Qed.

Lemma invert_views_Ok (pairs : list (View Node * list sint)) :
  forall ret,
    invert_views pairs = Ok ret ->
    Forall2 (fun p r => View_invert (fst p) (snd p) = Ok r) pairs ret.
Proof.
  induction pairs as [|[v s] rest IH]; intros ret E; cbn [invert_views] in E.
  - injection E as <-. constructor.
  - destruct (View_invert v s) as [r|e] eqn:V; cbn [bind] in E; [|discriminate].
    destruct (invert_views rest) as [rs|e]; cbn [bind] in E; [|discriminate].
    injection E as <-. constructor; auto.
Qed.

End Invert.

Lemma Forall2_In_l {A B : Type} (P : A -> B -> Prop) (l : list A) (l' : list B)
    (x : A) :
  Forall2 P l l' -> In x l -> exists y, In y l' /\ P x y.
Proof.
  intros F. induction F as [|a b l l' Pab F IH]; intros I; [contradiction|].
  destruct I as [->|I].
  - exists b. split; [now left|exact Pab].
  - destruct (IH I) as (y & Iy & Py). exists y. split; [now right|exact Py].
Qed.

Lemma Forall2_In_r {A B : Type} (P : A -> B -> Prop) (l : list A) (l' : list B)
    (y : B) :
  Forall2 P l l' -> In y l' -> exists x, In x l /\ P x y.
Proof.
  intros F. induction F as [|a b l l' Pab F IH]; intros I; [contradiction|].
  destruct I as [->|I].
  - exists a. split; [now left|exact Pab].
  - destruct (IH I) as (x & Ix & Px). exists x. split; [now right|exact Px].
Qed.

Section InvertFacts.

Context {Node : Type} `{NodeOps Node}.

#[local] Abbreviation sint := (sint Node).

Variable View_create :
  list sint -> option (list sint) -> sint -> option (list (sint * sint)) -> View Node.
Variable View_reshape : View Node -> list sint -> result (option (View Node)).
Variable MERGE_VIEW : Z.
Variable View_invert : View Node -> list sint -> result (option (View Node)).

Hypothesis View_create_shape : forall shp st off m,
  shape (View_create shp st off m) = shp.
Hypothesis View_reshape_shape : forall v new_shape nv,
  View_reshape v new_shape = Ok (Some nv) -> shape nv = new_shape.

#[local] Abbreviation reshape := (ST_reshape View_create View_reshape MERGE_VIEW).
#[local] Abbreviation invert :=
  (ST_invert View_create View_reshape MERGE_VIEW View_invert).

Lemma ST_reshape_shape (st st' : ShapeTracker Node) (new_shape : list sint) :
  reshape st new_shape = Ok st' -> ST_shape st' = Ok new_shape.
Proof.
  unfold ST_reshape, ST_shape.
  assert (Top : bind (get_last (views st ++ [View_create new_shape None (SInt 0) None]))
                  (fun v => Ok (shape v)) = Ok new_shape).
  { rewrite get_last_app. cbn [bind]. now rewrite View_create_shape. }
  destruct (Z.eqb MERGE_VIEW 0).
  { intros E. injection E as <-. exact Top. }
  destruct (get_last (views st)) as [v|e]; cbn [bind]; [|discriminate].
  destruct (View_reshape v new_shape) as [[nv|]|e] eqn:R; cbn [bind];
    [| |discriminate]; intros E; injection E as <-; [|exact Top].
  cbn [views]. rewrite get_last_app. cbn [bind].
  now rewrite (View_reshape_shape R).
Qed.

(** [invert] returns no tracker exactly when [View.invert] returns no view
    for one of the views, each view being inverted against the shape of the
    view below it and [views[0]] against [out_shape]; a tracker it returns
    has the shape [out_shape]. *)
Theorem invert_result (st : ShapeTracker Node) (out_shape : list sint) :
  (invert st out_shape = Ok None ->
   exists v s,
     In (v, s) (combine (views st) (out_shape :: map (@shape Node) (views st))) /\
     View_invert v s = Ok None) /\
  (forall r,
      invert st out_shape = Ok (Some r) ->
      (forall v s,
          In (v, s) (combine (views st) (out_shape :: map (@shape Node) (views st))) ->
          exists w, View_invert v s = Ok (Some w)) /\
      ST_shape r = Ok out_shape).
Proof.
  unfold ST_invert. destruct st as [vs]. rewrite invert_pairs_below. cbn [views].
  set (pairs := combine vs (out_shape :: map (@shape Node) vs)).
  destruct (invert_views View_invert (rev pairs)) as [ret|e] eqn:E; cbn [bind].
  2:{ split; [discriminate|]. intros r X. discriminate. }
  pose proof (invert_views_Ok View_invert _ E) as F.
  destruct (forallb (fun x => negb (is_None x)) ret) eqn:A.
  - split.
    { destruct (reshape (mkST (somes ret)) out_shape); discriminate. }
    intros r X.
    destruct (reshape (mkST (somes ret)) out_shape) as [r'|e] eqn:R;
      cbn [bind] in X; [|discriminate].
    injection X as <-. split; [|exact (ST_reshape_shape _ _ R)].
    intros v s I. apply in_rev in I.
    destruct (@Forall2_In_l _ _ _ _ _ _ F I) as (o & Io & V). cbn [fst snd] in V.
    pose proof (proj1 (forallb_forall _ _) A o Io) as N.
    destruct o as [w|]; [eauto|discriminate].
  - split; [|discriminate]. intros _.
    assert (X : exists o, In o ret /\ negb (is_None o) = false).
    { clear - A. induction ret as [|o ret IH]; [discriminate|].
      cbn [forallb] in A. apply andb_false_iff in A. destruct A as [A|A].
      - exists o. split; [now left|exact A].
      - destruct (IH A) as (o' & I & N). exists o'. split; [now right|exact N]. }
    destruct X as (o & Io & N). destruct o as [w|]; [discriminate|].
    destruct (@Forall2_In_r _ _ _ _ _ _ F Io) as ([v s] & Ip & V). cbn [fst snd] in V.
    exists v, s. split; [|exact V]. now apply in_rev.
Qed.

End InvertFacts.

Lemma invert_result_witness :
  (ST_invert c_create (fun _ _ => Ok None) 1 (fun v _ => Ok (Some v))
     (mkST [row4]) [SInt 4] = Ok None ->
   exists v s,
     In (v, s) (combine (views (mkST [row4]))
                  ([SInt 4] :: map (@shape CNode) (views (mkST [row4])))) /\
     (fun (v : View CNode) (_ : list (sint CNode)) => Ok (Some v)) v s = Ok None) /\
  (forall r,
      ST_invert c_create (fun _ _ => Ok None) 1 (fun v _ => Ok (Some v))
        (mkST [row4]) [SInt 4] = Ok (Some r) ->
      (forall v s,
          In (v, s) (combine (views (mkST [row4]))
                       ([SInt 4] :: map (@shape CNode) (views (mkST [row4])))) ->
          exists w,
            (fun (v : View CNode) (_ : list (sint CNode)) => Ok (Some v)) v s
            = Ok (Some w)) /\
      ST_shape r = Ok [SInt 4]).
Proof.
  apply (@invert_result CNode c_create (fun _ _ => Ok None) 1
           (fun v _ => Ok (Some v))).
  - reflexivity.
  - discriminate.
Defined.

(** * What a single masked view means *)

(** [mask_okb] with the last dimension first and no running product. *)
Fixpoint mask_okLE (rdm : list (Z * (Z * Z))) (x : Z) : bool :=
  match rdm with
  | [] => true
  | (d, (lo, hi)) :: rest =>
      (((lo =? 0) && (hi =? d)) || ((lo <=? x mod d) && (x mod d <? hi)))
      && mask_okLE rest (x / d)
  end.

Lemma mask_okb_LE (rdm : list (Z * (Z * Z))) (acc x : Z) :
  0 < acc -> Forall (fun p => 0 < fst p) rdm ->
  mask_okb rdm acc x = mask_okLE rdm (x / acc).
Proof.
  intros A F. revert acc A. induction F as [|[d [lo hi]] rest D F IH]; intros acc A.
  - reflexivity.
  - cbn [mask_okb mask_okLE]. cbn [fst] in D.
    rewrite IH by nia. rewrite Z.div_div by lia. reflexivity.
Qed.

(** The index coordinate [fst p] lies within the mask entry [snd p]. *)
Definition inside (p : Z * (Z * Z)) : bool :=
  (fst (snd p) <=? fst p) && (fst p <? snd (snd p)).

Lemma mask_okLE_flatLE (ds ys : list Z) :
  Forall2 (fun d y => 0 <= y < d) ds ys ->
  forall ms, length ms = length ds ->
    mask_okLE (combine ds ms) (flatLE ys ds) = forallb inside (combine ys ms).
Proof.
  intros F. induction F as [|d y ds ys R F IH]; intros [|[lo hi] ms] L;
    cbn [length] in L; try discriminate; [reflexivity|].
  cbn [combine mask_okLE flatLE forallb].
  assert (M : (y + d * flatLE ys ds) mod d = y).
  { rewrite Z.mul_comm, Z.mod_add, Z.mod_small; lia. }
  assert (Q : (y + d * flatLE ys ds) / d = flatLE ys ds).
  { rewrite Z.mul_comm, Z.div_add, Z.div_small; lia. }
  rewrite M, Q, IH by lia. f_equal.
  unfold inside. cbn [fst snd].
  destruct (lo <=? y) eqn:A, (y <? hi) eqn:B; cbn [andb orb];
    try (now rewrite orb_true_r); rewrite orb_false_r;
    apply andb_false_iff;
    [ apply Z.ltb_ge in B | apply Z.leb_gt in A | apply Z.leb_gt in A ];
    destruct (lo =? 0) eqn:E1; auto; right; apply Z.eqb_eq in E1;
    apply Z.eqb_neq; lia.
Qed.

Lemma forallb_rev {A : Type} (f : A -> bool) (l : list A) :
  forallb f (rev l) = forallb f l.
Proof.
  induction l as [|x l IH]; [reflexivity|].
  cbn [rev forallb]. rewrite forallb_app, IH. cbn [forallb].
  rewrite andb_true_r. apply andb_comm.
Qed.

Lemma view_valid_inside (v : ZView) (m : list (Z * Z)) (xs : list Z) :
  zmask v = Some m -> length m = length (zshape v) ->
  in_range (zshape v) xs ->
  view_valid_flat v (flat_index (zshape v) xs) = forallb inside (combine xs m).
Proof.
  intros M L R. unfold view_valid_flat. rewrite M.
  pose proof (in_range_length R) as LX.
  rewrite mask_okb_LE; [|lia|].
  - rewrite Z.div_1_r, flat_index_flatLE by exact LX.
    rewrite mask_okLE_flatLE.
    + rewrite <- combine_rev by lia. apply forallb_rev.
    + now apply in_range_rev.
    + now rewrite !length_rev.
  - apply Forall_forall. intros [d lh] I. apply in_combine_l in I.
    apply in_rev in I. cbn [fst].
    exact (proj1 (Forall_forall _ _) (in_range_pos R) d I).
Qed.

(** The expressions of a tracker with one masked view of integer geometry,
    at an index within its shape: the offset is the view's offset plus the
    sum of coordinate times stride, and the validity holds exactly when
    every coordinate lies within its mask entry, lower end included and
    upper end excluded. *)
Theorem single_view_meaning (v : ZView) (m : list (Z * Z)) (rho : string -> Z) :
  length (zstrides v) = length (zshape v) ->
  zmask v = Some m -> length m = length (zshape v) ->
  env_range rho (zshape v) ->
  exists i valid,
    c_expr_idxs (mkST [view_of v]) None = Ok (i, valid) /\
    ceval rho i
    = zoffset v + dot (idx_values rho 0 (length (zshape v))) (zstrides v) /\
    truth rho valid
    = forallb inside (combine (idx_values rho 0 (length (zshape v))) m).
Proof.
  intros LS M L R.
  destruct (top_exprs v) as (e & f & Ee & Ef & _).
  pose proof (@top_exprs_sem rho v e f Ee Ef LS R) as S.
  cbn zeta in S. destruct S as (Se & _ & St & _).
  exists e, (expr_node_mask (view_of v) f None).
  split; [apply (one_view_exprs v Ee Ef)|]. split.
  - exact Se.
  - rewrite St. now apply view_valid_inside.
Qed.

Lemma single_view_meaning_witness :
  exists i valid,
    c_expr_idxs (mkST [view_of zpadded4]) None = Ok (i, valid) /\
    ceval (fun _ => 2) i
    = zoffset zpadded4
      + dot (idx_values (fun _ => 2) 0 (length (zshape zpadded4)))
          (zstrides zpadded4) /\
    truth (fun _ => 2) valid
    = forallb inside
        (combine (idx_values (fun _ => 2) 0 (length (zshape zpadded4))) [(1, 5)]).
Proof.
  apply (@single_view_meaning zpadded4 [(1, 5)] (fun _ => 2)).
  - reflexivity.
  - reflexivity.
  - reflexivity.
  - constructor; [simpl; lia|constructor].
Defined.
